(** * The homepage word rotator (static/js/dac-word-rotator.js)

    A shallow embedding of the [DacWordRotator] widget: the part of the page
    it reads and writes, the browser services it calls ([setTimeout],
    [clearTimeout], [Math.random], the DOM of its host element), its methods
    as computations in a state-and-exception monad, and the event loop that
    runs its callbacks.

    Conventions of the model:
    - numbers that count (indices, milliseconds) are [nat]; the results of
      [Math.random()] are exact rationals in [0, 1);
    - the subtree of the host is a flat list of child elements;
    - a pending timer may fire at any time from its due time on, in any
      order with the other pending timers and with clicks;
    - an exception that leaves a callback is logged, and what the callback
      did before stays done. *)

From Stdlib Require Import Ascii String QArith Qround.
From stdpp Require Import base tactics option strings numbers list.

#[local] Set Warnings "-abstract-large-number".

Local Open Scope string_scope.
Local Open Scope list_scope.
Local Open Scope nat_scope.

(** ** JavaScript values held in the word array *)

(** An array slot holds a string, or reads as [undefined]. *)
Inductive jsval : Type :=
| undefined
| str (s : string).

#[global] Instance jsval_eq_dec : EqDecision jsval.
Proof. solve_decision. Defined.

(** [array[i]]: a read past the end yields [undefined]. *)
Definition array_get (array : list jsval) (i : nat) : jsval :=
  default undefined (array !! i).

(** [array[i] = v]: a write past the end extends the array, the skipped
    slots reading as [undefined]. *)
Definition array_set (array : list jsval) (i : nat) (v : jsval) : list jsval :=
  if decide (i < length array)
  then <[i:=v]> array
  else array ++ replicate (i - length array) undefined ++ [v].

(** [array.slice(1)] and [[x].concat(ys)]. *)
Definition slice1 (array : list jsval) : list jsval := drop 1 array.
Definition concat1 (x : jsval) (ys : list jsval) : list jsval := x :: ys.

(** ** Strings: [String.prototype.split] with a one-character separator *)

(** First token and remaining tokens; the result of [split] is never empty. *)
Fixpoint split_tokens (sep : ascii) (s : string) : string * list string :=
  match s with
  | EmptyString => (EmptyString, [])
  | String c s' =>
      let '(w, ws) := split_tokens sep s' in
      if Ascii.eqb c sep then (EmptyString, w :: ws) else (String c w, ws)
  end.

Definition split (sep : ascii) (s : string) : list string :=
  let '(w, ws) := split_tokens sep s in w :: ws.

Definition comma : ascii := "," % char.



(** ** [Math.random] and [Math.floor] *)

(** [Math.random()] returns a number in the half-open interval [0, 1).  The
    numbers are taken as exact rationals. *)
Definition in_unit_interval (q : Q) : bool :=
  Qle_bool 0 q && negb (Qle_bool 1 q).

Record Random : Type := mkRandom {
  random_value : Q;
  random_range : in_unit_interval random_value = true
}.

Definition Math_floor (q : Q) : Z := Qfloor q.

(** ** The page *)

(** CSS selectors/classes map. *)
Module CLASSES.

Definition ACTIVE : string := "is-active".
Definition ENTERING : string := "is-entering".
Definition EXITING : string := "is-exiting".
Definition IS_READY : string := "is-ready".
Definition ROTATOR : string := "dac-word-rotator".

End CLASSES.

(** A child element of the host.  [node_id] is the identity of the DOM
    object. *)
Record Node : Type := mkNode {
  node_id : nat;
  localName : string;
  textContent : string;
  classList : list string
}.

(** The host: the first element matching [.dac-word-rotator].  Its subtree is
    taken to be a flat list of child elements. *)
Record Element : Type := mkElement {
  dataset_words : option string;      (* the data-words attribute *)
  childNodes : list Node
}.

(** The script holds a reference to one element only. *)
Inductive ElementRef : Type := HostEl.

(** What a pending timer runs: the bound [rotateWord_], or the anonymous
    function of [rotateWord_] that removes the previous word element. *)
Inductive Callback : Type :=
| CbRotateWord
| CbRemoveChild (previousWordEl : nat).

#[global] Instance Callback_eq_dec : EqDecision Callback.
Proof. solve_decision. Defined.

(** Timer handles are integers greater than zero. *)
Record Timer : Type := mkTimer {
  handle : positive;
  due : nat;                          (* milliseconds *)
  callback : Callback
}.

(** The click listener the constructor registers: the bound
    [toggleAnimation_]. *)
Inductive Listener : Type := ToggleAnimation.

Inductive Exn : Type := TypeError (msg : string).

Record Page : Type := mkPage {
  now : nat;                          (* the clock, in milliseconds *)
  host : option Element;              (* document.querySelector('.dac-word-rotator') *)
  host_listeners : list Listener;     (* click listeners of the host *)
  body_classList : list string;       (* document.body.classList *)
  timers : list Timer;                (* pending timeouts *)
  next_handle : positive;
  next_node : nat;                    (* identity of the next created element *)
  random_source : nat -> Random;      (* the n-th result of Math.random() *)
  random_calls : nat;
  console_errors : list Exn           (* uncaught exceptions of callbacks *)
}.

(** ** The instance *)

Record DacWordRotator : Type := mkRotator {
  el_ : option ElementRef;
  words_ : list jsval;
  currentIndex_ : nat;
  interval_ : nat;
  duration_ : nat;
  timeout_ : option positive
}.

(** The object [new] allocates, before the constructor has assigned its
    fields. *)
Definition blank : DacWordRotator :=
  {| el_ := None; words_ := []; currentIndex_ := 0;
     interval_ := 0; duration_ := 0; timeout_ := None |}.

(** The page together with the one object the script allocates. *)
Record Sys : Type := mkSys {
  page : Page;
  this : DacWordRotator
}.

(** ** Computations: state survives an exception *)

Inductive Completion (A : Type) : Type :=
| Normal (a : A)
| Throw (e : Exn).
Arguments Normal {A} a.
Arguments Throw {A} e.

Definition JS (A : Type) : Type := Sys -> Sys * Completion A.

#[global] Instance JS_ret : MRet JS := fun A a s => (s, Normal a).

#[global] Instance JS_bind : MBind JS := fun A B f m s =>
  match m s with
  | (s', Normal a) => f a s'
  | (s', Throw e) => (s', Throw e)
  end.

Definition throw {A : Type} (e : Exn) : JS A := fun s => (s, Throw e).
Definition get_this : JS DacWordRotator := fun s => (s, Normal (this s)).
Definition get_page : JS Page := fun s => (s, Normal (page s)).
Definition set_this (r : DacWordRotator) : JS unit :=
  fun s => ({| page := page s; this := r |}, Normal tt).
Definition set_page (pg : Page) : JS unit :=
  fun s => ({| page := pg; this := this s |}, Normal tt).

(** Field updates of the page. *)
Definition with_timers (ts : list Timer) (h : positive) (pg : Page) : Page :=
  {| now := now pg; host := host pg; host_listeners := host_listeners pg;
     body_classList := body_classList pg; timers := ts; next_handle := h;
     next_node := next_node pg; random_source := random_source pg;
     random_calls := random_calls pg; console_errors := console_errors pg |}.

Definition with_host (el : Element) (pg : Page) : Page :=
  {| now := now pg; host := Some el; host_listeners := host_listeners pg;
     body_classList := body_classList pg; timers := timers pg;
     next_handle := next_handle pg; next_node := next_node pg;
     random_source := random_source pg; random_calls := random_calls pg;
     console_errors := console_errors pg |}.

Definition with_next_node (n : nat) (pg : Page) : Page :=
  {| now := now pg; host := host pg; host_listeners := host_listeners pg;
     body_classList := body_classList pg; timers := timers pg;
     next_handle := next_handle pg; next_node := n;
     random_source := random_source pg; random_calls := random_calls pg;
     console_errors := console_errors pg |}.

Definition with_listeners (ls : list Listener) (pg : Page) : Page :=
  {| now := now pg; host := host pg; host_listeners := ls;
     body_classList := body_classList pg; timers := timers pg;
     next_handle := next_handle pg; next_node := next_node pg;
     random_source := random_source pg; random_calls := random_calls pg;
     console_errors := console_errors pg |}.

Definition with_body (cl : list string) (pg : Page) : Page :=
  {| now := now pg; host := host pg; host_listeners := host_listeners pg;
     body_classList := cl; timers := timers pg;
     next_handle := next_handle pg; next_node := next_node pg;
     random_source := random_source pg; random_calls := random_calls pg;
     console_errors := console_errors pg |}.

Definition with_random_calls (n : nat) (pg : Page) : Page :=
  {| now := now pg; host := host pg; host_listeners := host_listeners pg;
     body_classList := body_classList pg; timers := timers pg;
     next_handle := next_handle pg; next_node := next_node pg;
     random_source := random_source pg; random_calls := n;
     console_errors := console_errors pg |}.

Definition with_now (t : nat) (pg : Page) : Page :=
  {| now := t; host := host pg; host_listeners := host_listeners pg;
     body_classList := body_classList pg; timers := timers pg;
     next_handle := next_handle pg; next_node := next_node pg;
     random_source := random_source pg; random_calls := random_calls pg;
     console_errors := console_errors pg |}.

Definition with_error (e : Exn) (pg : Page) : Page :=
  {| now := now pg; host := host pg; host_listeners := host_listeners pg;
     body_classList := body_classList pg; timers := timers pg;
     next_handle := next_handle pg; next_node := next_node pg;
     random_source := random_source pg; random_calls := random_calls pg;
     console_errors := console_errors pg ++ [e] |}.

(** Field updates of the instance. *)
Definition upd_el_ (el : option ElementRef) (r : DacWordRotator) : DacWordRotator :=
  {| el_ := el; words_ := words_ r; currentIndex_ := currentIndex_ r;
     interval_ := interval_ r; duration_ := duration_ r; timeout_ := timeout_ r |}.

Definition upd_words_ (ws : list jsval) (r : DacWordRotator) : DacWordRotator :=
  {| el_ := el_ r; words_ := ws; currentIndex_ := currentIndex_ r;
     interval_ := interval_ r; duration_ := duration_ r; timeout_ := timeout_ r |}.

Definition upd_currentIndex_ (i : nat) (r : DacWordRotator) : DacWordRotator :=
  {| el_ := el_ r; words_ := words_ r; currentIndex_ := i;
     interval_ := interval_ r; duration_ := duration_ r; timeout_ := timeout_ r |}.

Definition upd_interval_ (n : nat) (r : DacWordRotator) : DacWordRotator :=
  {| el_ := el_ r; words_ := words_ r; currentIndex_ := currentIndex_ r;
     interval_ := n; duration_ := duration_ r; timeout_ := timeout_ r |}.

Definition upd_duration_ (n : nat) (r : DacWordRotator) : DacWordRotator :=
  {| el_ := el_ r; words_ := words_ r; currentIndex_ := currentIndex_ r;
     interval_ := interval_ r; duration_ := n; timeout_ := timeout_ r |}.

Definition upd_timeout_ (h : option positive) (r : DacWordRotator) : DacWordRotator :=
  {| el_ := el_ r; words_ := words_ r; currentIndex_ := currentIndex_ r;
     interval_ := interval_ r; duration_ := duration_ r; timeout_ := h |}.

(** An assignment [this.field = v]. *)
Definition assign (upd : DacWordRotator -> DacWordRotator) : JS unit :=
  r ← get_this; set_this (upd r).

Definition assign_el_ (el : option ElementRef) : JS unit := assign (upd_el_ el).
Definition assign_words_ (ws : list jsval) : JS unit := assign (upd_words_ ws).
Definition assign_currentIndex_ (i : nat) : JS unit := assign (upd_currentIndex_ i).
Definition assign_interval_ (n : nat) : JS unit := assign (upd_interval_ n).
Definition assign_duration_ (n : nat) : JS unit := assign (upd_duration_ n).
Definition assign_timeout_ (h : option positive) : JS unit := assign (upd_timeout_ h).

(** ** Browser services *)

(** [window.setTimeout(cb, delay)]: a one-shot timer, due [delay]
    milliseconds from now; returns its handle. *)
Definition setTimeout (cb : Callback) (delay : nat) : JS positive :=
  pg ← get_page;
  let h := next_handle pg in
  set_page (with_timers
              (timers pg ++ [{| handle := h; due := now pg + delay; callback := cb |}])
              (Pos.succ h) pg) ;;
  mret h.

(** [window.clearTimeout(h)]: the timer of that handle, if pending, is
    cancelled. *)
Definition clearTimeout (h : positive) : JS unit :=
  pg ← get_page;
  set_page (with_timers (filter (λ tm, handle tm ≠ h) (timers pg)) (next_handle pg) pg).

Definition Math_random : JS Q :=
  pg ← get_page;
  set_page (with_random_calls (S (random_calls pg)) pg) ;;
  mret (random_value (random_source pg (random_calls pg))).

(** Reading a property of [null] throws. *)
Definition cannot_read (property : string) : Exn :=
  TypeError ("Cannot read properties of null (reading '" +:+ property +:+ "')").

(** Dereference of an element reference that may be [null], to read
    [property]. *)
Definition deref (el : option ElementRef) (property : string) : JS Element :=
  pg ← get_page;
  match el, host pg with
  | Some HostEl, Some e => mret e
  | _, _ => throw (cannot_read property)
  end.

(** Dereference of a node reference that may be [null]. *)
Definition deref_node (n : option nat) (property : string) : JS nat :=
  match n with
  | Some id => mret id
  | None => throw (cannot_read property)
  end.

Definition is_span (n : Node) : Prop := localName n = "span".

#[global] Instance is_span_dec n : Decision (is_span n).
Proof. unfold is_span. apply _. Defined.

(** [el.querySelector('span')]: the first span of the host in document
    order, or [null]. *)
Definition querySelector_span (el : option ElementRef) : JS (option nat) :=
  e ← deref el "querySelector";
  mret (node_id <$> head (filter is_span (childNodes e))).

(** [document.createElement(name)]: a new element, not yet in the document. *)
Definition createElement (name : string) : JS Node :=
  pg ← get_page;
  set_page (with_next_node (S (next_node pg)) pg) ;;
  mret {| node_id := next_node pg; localName := name; textContent := EmptyString;
          classList := [] |}.

(** [DOMTokenList.add]: the token list is an ordered set. *)
Definition token_add (token : string) (tokens : list string) : list string :=
  if decide (token ∈ tokens) then tokens else tokens ++ [token].

Definition node_add_class (token : string) (n : Node) : Node :=
  {| node_id := node_id n; localName := localName n;
     textContent := textContent n; classList := token_add token (classList n) |}.

(** The [textContent] setter: [undefined] is converted to the empty
    string. *)
Definition node_set_textContent (v : jsval) (n : Node) : Node :=
  {| node_id := node_id n; localName := localName n;
     textContent := match v with str s => s | undefined => EmptyString end;
     classList := classList n |}.

(** [el.appendChild(node)]. *)
Definition element_append (n : Node) (e : Element) : Element :=
  {| dataset_words := dataset_words e; childNodes := childNodes e ++ [n] |}.

Definition appendChild (el : option ElementRef) (n : Node) : JS unit :=
  e ← deref el "appendChild";
  pg ← get_page;
  set_page (with_host (element_append n e) pg).

(** [node.getBoundingClientRect()]: forces a layout; no state of the model
    changes. *)
Definition getBoundingClientRect (id : nat) : JS unit := mret tt.

(** [node.classList.add(token)] on an element that is in the host. *)
Definition element_add_class (id : nat) (token : string) (e : Element) : Element :=
  {| dataset_words := dataset_words e;
     childNodes := (λ n, if decide (node_id n = id)
                         then node_add_class token n else n) <$> childNodes e |}.

Definition classList_add (id : nat) (token : string) : JS unit :=
  pg ← get_page;
  match host pg with
  | Some e => set_page (with_host (element_add_class id token e) pg)
  | None => mret tt
  end.

(** Removal of the first child of that identity. *)
Fixpoint remove_node (id : nat) (ns : list Node) : list Node :=
  match ns with
  | [] => []
  | n :: ns' => if decide (node_id n = id) then ns' else n :: remove_node id ns'
  end.

Definition attached (id : nat) (e : Element) : Prop :=
  id ∈ node_id <$> childNodes e.

#[global] Instance attached_dec id e : Decision (attached id e).
Proof. unfold attached. apply _. Defined.

Definition element_remove (id : nat) (e : Element) : Element :=
  {| dataset_words := dataset_words e; childNodes := remove_node id (childNodes e) |}.

(** [node.parentNode.removeChild(node)]: [parentNode] is [null] once the
    node has left the host. *)
Definition parentNode_removeChild (id : nat) : JS unit :=
  pg ← get_page;
  match host pg with
  | Some e =>
      if decide (attached id e)
      then set_page (with_host (element_remove id e) pg)
      else throw (cannot_read "removeChild")
  | None => throw (cannot_read "removeChild")
  end.

(** [document.body.classList.add(token)]. *)
Definition body_classList_add (token : string) : JS unit :=
  pg ← get_page;
  set_page (with_body (token_add token (body_classList pg)) pg).

(** [el.addEventListener('click', listener)]. *)
Definition addEventListener_click (el : option ElementRef) (l : Listener) : JS unit :=
  _ ← deref el "addEventListener";
  pg ← get_page;
  set_page (with_listeners (host_listeners pg ++ [l]) pg).

(** ** The methods of [DacWordRotator] *)

(** Schedules a transition in the future.  Caches the timeout to allow for
    animation pausing. *)
Definition scheduleWord_ : JS unit :=
  r ← get_this;
  h ← setTimeout CbRotateWord (interval_ r);
  assign_timeout_ (Some h).

(** The click event, as far as the handler uses it. *)
Record ClickEvent : Type := mkClick { defaultPrevented : bool }.

Definition preventDefault (e : ClickEvent) : ClickEvent :=
  {| defaultPrevented := true |}.

(** Toggles the animation on/off.  A handle is a positive integer, hence
    truthy; [null] is falsy. *)
Definition toggleAnimation_ (e : ClickEvent) : JS ClickEvent :=
  let e := preventDefault e in
  r ← get_this;
  match timeout_ r with
  | Some h => clearTimeout h ;; assign_timeout_ None
  | None => scheduleWord_
  end ;;
  mret e.

(** [Math.floor(Math.random() * counter)]. *)
Definition random_index (r : Q) (counter : nat) : nat :=
  Z.to_nat (Math_floor (r * inject_Z (Z.of_nat counter))).

(** The [while (counter > 0)] loop of [shuffleArray_]. *)
Fixpoint shuffle_loop (counter : nat) (array : list jsval) : JS (list jsval) :=
  match counter with
  | 0 => mret array
  | S counter' =>
      r ← Math_random;
      let index := random_index r counter in
      (* counter -= 1 *)
      let temp := array_get array counter' in
      let array := array_set array counter' (array_get array index) in
      let array := array_set array index temp in
      shuffle_loop counter' array
  end.

Definition shuffleArray_ (array : list jsval) : JS (list jsval) :=
  shuffle_loop (length array) array.

(** [!words] for the value of [dataset.words]: [undefined] and the empty
    string are falsy. *)
Definition falsy (words : option string) : bool :=
  match words with
  | None => true
  | Some s => bool_decide (s = EmptyString)
  end.

(** The part of [buildWords_] after the guard: randomize all words except
    the first element. *)
Definition arrange (words : list jsval) : JS (list jsval) :=
  shuffled ← shuffleArray_ (slice1 words);
  mret (concat1 (array_get words 0) shuffled).

Definition buildWords_ : JS (list jsval) :=
  r ← get_this;
  el ← deref (el_ r) "dataset";
  let words := dataset_words el in
  if falsy words then mret []
  else arrange (str <$> split comma (default EmptyString words)).

(** The [if (nextIndex === this.words_.length)] wrap of [rotateWord_]. *)
Definition next_index (currentIndex length : nat) : nat :=
  let nextIndex := currentIndex + 1 in
  if decide (nextIndex = length) then 0 else nextIndex.

Definition rotateWord_ : JS unit :=
  r ← get_this;
  let nextIndex := next_index (currentIndex_ r) (length (words_ r)) in
  let nextWord := array_get (words_ r) nextIndex in
  previousWordEl ← querySelector_span (el_ r);
  nextWordEl ← createElement "span";
  let nextWordEl := node_set_textContent nextWord nextWordEl in
  let nextWordEl := node_add_class CLASSES.ENTERING nextWordEl in
  appendChild (el_ r) nextWordEl ;;
  getBoundingClientRect (node_id nextWordEl) ;;
  classList_add (node_id nextWordEl) CLASSES.ACTIVE ;;
  previous ← deref_node previousWordEl "classList";
  classList_add previous CLASSES.EXITING ;;
  r ← get_this;
  _ ← setTimeout (CbRemoveChild previous) (duration_ r);
  assign_currentIndex_ nextIndex ;;
  scheduleWord_.

(** The constructor, run on the object [new] has allocated. *)
Definition DacWordRotator_new (el : option ElementRef) : JS unit :=
  assign_el_ el ;;
  words ← buildWords_;
  assign_words_ words ;;
  assign_currentIndex_ 0 ;;
  assign_interval_ 2500 ;;
  assign_duration_ 400 ;;
  assign_timeout_ None ;;
  scheduleWord_ ;;
  body_classList_add CLASSES.IS_READY ;;
  r ← get_this;
  addEventListener_click (el_ r) ToggleAnimation.

(** [document.querySelector('.' + CLASSES.ROTATOR)]. *)
Definition querySelector_rotator : JS (option ElementRef) :=
  pg ← get_page;
  mret (match host pg with Some _ => Some HostEl | None => None end).

Definition initialize : JS unit :=
  el ← querySelector_rotator;
  DacWordRotator_new el.

(** ** The event loop *)

Definition callback_body (cb : Callback) : JS unit :=
  match cb with
  | CbRotateWord => rotateWord_
  | CbRemoveChild previousWordEl => parentNode_removeChild previousWordEl
  end.

Definition listener_body (l : Listener) : ClickEvent -> JS ClickEvent :=
  match l with
  | ToggleAnimation => toggleAnimation_
  end.

(** An exception that leaves a callback is reported; what the callback did
    before it stays done. *)
Definition report (e : Exn) (s : Sys) : Sys :=
  {| page := with_error e (page s); this := this s |}.

Definition run_callback (m : JS unit) (s : Sys) : Sys :=
  match m s with
  | (s', Normal _) => s'
  | (s', Throw e) => report e s'
  end.

Definition at_time (t : nat) (s : Sys) : Sys :=
  {| page := with_now t (page s); this := this s |}.

(** A click on the host at time [t]: its listeners run in order on the same
    event object. *)
Definition dispatch_click (e : ClickEvent) (s : Sys) : Sys * ClickEvent :=
  foldl (λ se l,
           match listener_body l se.2 se.1 with
           | (s', Normal e') => (s', e')
           | (s', Throw x) => (report x s', se.2)
           end)
        (s, e) (host_listeners (page s)).

Definition click (t : nat) (s : Sys) : Sys :=
  (dispatch_click {| defaultPrevented := false |} (at_time t s)).1.

(** The pending timer [tm] fires at time [t]: it leaves the timer table, and
    its callback runs. *)
Definition fire (t : nat) (tm : Timer) (s : Sys) : Sys :=
  let s := at_time t s in
  let pg := page s in
  let pending := filter (λ x, handle x ≠ handle tm) (timers pg) in
  run_callback (callback_body (callback tm))
    {| page := with_timers pending (next_handle pg) pg; this := this s |}.

(** The page when the [load] event fires.  The document may or may not have
    a host element. *)
Definition initial_page (t0 : nat) (el : option Element) (body : list string)
    (rnd : nat -> Random) : Page :=
  {| now := t0; host := el; host_listeners := []; body_classList := body;
     timers := []; next_handle := 1%positive;
     next_node := S (max_list (node_id <$> from_option childNodes [] el));
     random_source := rnd; random_calls := 0; console_errors := [] |}.

(** The [load] listener: [DacWordRotator.initialize]. *)
Definition window_load (pg : Page) : Sys :=
  run_callback initialize {| page := pg; this := blank |}.

(** [reaches s0 k s]: from [s0], clicks and timer firings lead to [s], and
    [k] of the firings ran the rotation cycle.  A timer fires no earlier than
    it is due. *)
Inductive reaches (s0 : Sys) : nat -> Sys -> Prop :=
| reaches_start : reaches s0 0 s0
| reaches_click k s t :
    reaches s0 k s -> (now (page s) ≤ t)%nat ->
    reaches s0 k (click t s)
| reaches_rotate k s t tm :
    reaches s0 k s -> tm ∈ timers (page s) -> callback tm = CbRotateWord ->
    (now (page s) ≤ t)%nat -> (due tm ≤ t)%nat ->
    reaches s0 (S k) (fire t tm s)
| reaches_remove k s t tm previousWordEl :
    reaches s0 k s -> tm ∈ timers (page s) ->
    callback tm = CbRemoveChild previousWordEl ->
    (now (page s) ≤ t)%nat -> (due tm ≤ t)%nat ->
    reaches s0 k (fire t tm s).

(** ** States the methods and the events lead to *)

(** Two states that differ at most in the number of [Math.random()] calls
    made so far. *)
Definition same_but_random (s s' : Sys) : Prop :=
  this s' = this s ∧
  with_random_calls 0 (page s') = with_random_calls 0 (page s).

(** The state after [scheduleWord_]. *)
Definition scheduled (s : Sys) : Sys :=
  {| page := with_timers
               (timers (page s) ++
                [{| handle := next_handle (page s);
                    due := now (page s) + interval_ (this s);
                    callback := CbRotateWord |}])
               (Pos.succ (next_handle (page s))) (page s);
     this := upd_timeout_ (Some (next_handle (page s))) (this s) |}.

(** The state after the pausing branch of [toggleAnimation_]. *)
Definition cleared (h : positive) (s : Sys) : Sys :=
  {| page := with_timers (filter (λ tm, handle tm ≠ h) (timers (page s)))
                         (next_handle (page s)) (page s);
     this := upd_timeout_ None (this s) |}.

(** The new word element of a rotation. *)
Definition next_word_element (s : Sys) : Node :=
  node_add_class CLASSES.ENTERING
    (node_set_textContent
       (array_get (words_ (this s))
          (next_index (currentIndex_ (this s)) (length (words_ (this s)))))
       {| node_id := next_node (page s); localName := "span";
          textContent := EmptyString; classList := [] |}).

(** The host once the new word element is in place and active. *)
Definition entered (s : Sys) (e : Element) : Element :=
  element_add_class (next_node (page s)) CLASSES.ACTIVE
    (element_append (next_word_element s) e).

(** The state after a rotation that found the previous word element. *)
Definition rotated (e : Element) (previous : nat) (s : Sys) : Sys :=
  let pg := page s in
  {| page :=
       {| now := now pg;
          host := Some (element_add_class previous CLASSES.EXITING (entered s e));
          host_listeners := host_listeners pg;
          body_classList := body_classList pg;
          timers := (timers pg ++
                     [{| handle := next_handle pg;
                         due := now pg + duration_ (this s);
                         callback := CbRemoveChild previous |}]) ++
                    [{| handle := Pos.succ (next_handle pg);
                        due := now pg + interval_ (this s);
                        callback := CbRotateWord |}];
          next_handle := Pos.succ (Pos.succ (next_handle pg));
          next_node := S (next_node pg);
          random_source := random_source pg;
          random_calls := random_calls pg;
          console_errors := console_errors pg |};
     this :=
       {| el_ := el_ (this s); words_ := words_ (this s);
          currentIndex_ := next_index (currentIndex_ (this s)) (length (words_ (this s)));
          interval_ := interval_ (this s); duration_ := duration_ (this s);
          timeout_ := Some (Pos.succ (next_handle pg)) |} |}.

(** The state in which a rotation that found no previous word element
    throws. *)
Definition stranded (e : Element) (s : Sys) : Sys :=
  {| page := with_host (entered s e) (with_next_node (S (next_node (page s))) (page s));
     this := this s |}.

(** What [buildWords_] returns for the host [e]: nothing when the attribute
    is absent or empty, otherwise the first token of the attribute followed
    by a rearrangement of the other tokens. *)
Definition built (e : Element) (ws : list jsval) : Prop :=
  if falsy (dataset_words e) then ws = []
  else
    let words := str <$> split comma (default EmptyString (dataset_words e)) in
    ∃ shuffled, ws = array_get words 0 :: shuffled ∧ shuffled ≡ₚ drop 1 words.

(** The state after the constructor has run on a page that has a host. *)
Definition constructed (ws : list jsval) (pg : Page) : Sys :=
  {| page :=
       {| now := now pg; host := host pg;
          host_listeners := host_listeners pg ++ [ToggleAnimation];
          body_classList := token_add CLASSES.IS_READY (body_classList pg);
          timers := timers pg ++
                    [{| handle := next_handle pg; due := now pg + 2500;
                        callback := CbRotateWord |}];
          next_handle := Pos.succ (next_handle pg);
          next_node := next_node pg;
          random_source := random_source pg;
          random_calls := random_calls pg;
          console_errors := console_errors pg |};
     this :=
       {| el_ := Some HostEl; words_ := ws; currentIndex_ := 0;
          interval_ := 2500; duration_ := 400;
          timeout_ := Some (next_handle pg) |} |}.

(** The state in which the callback of a fired timer starts. *)
Definition popped (t : nat) (tm : Timer) (s : Sys) : Sys :=
  {| page := with_timers (filter (λ x, handle x ≠ handle tm) (timers (page s)))
                         (next_handle (page s)) (with_now t (page s));
     this := this s |}.

(** The state after the previous word element has left the host. *)
Definition removed (id : nat) (e : Element) (s : Sys) : Sys :=
  {| page := with_host (element_remove id e) (page s); this := this s |}.

(** ** Timers, word elements, invariants *)

Definition is_rotation (tm : Timer) : Prop := callback tm = CbRotateWord.

#[global] Instance is_rotation_dec tm : Decision (is_rotation tm).
Proof. unfold is_rotation. apply _. Defined.

(** The pending timers that will run the rotation cycle, and those that will
    remove a previous word element. *)
Definition rotations (ts : list Timer) : list Timer := filter is_rotation ts.
Definition removals (ts : list Timer) : list Timer := filter (λ tm, ¬ is_rotation tm) ts.

(** Handles are handed out in increasing order, so no two pending timers
    share one. *)
Definition fresh_timers (ts : list Timer) (next : positive) : Prop :=
  NoDup (handle <$> ts) ∧ Forall (λ tm, (handle tm < next)%positive) ts.

Definition span_count (s : Sys) : nat :=
  length (filter is_span (from_option childNodes [] (host (page s)))).

(** The instance is bound to the host, its click listener is registered, and
    every pending rotation timer is the one whose handle is stored. *)
Record bound (s : Sys) : Prop := mk_bound {
  bound_el : el_ (this s) = Some HostEl;
  bound_host : is_Some (host (page s));
  bound_listeners : host_listeners (page s) = [ToggleAnimation];
  bound_interval : interval_ (this s) = 2500;
  bound_duration : duration_ (this s) = 400;
  bound_fresh : fresh_timers (timers (page s)) (next_handle (page s));
  bound_timer :
    rotations (timers (page s)) = [] ∨
    ∃ tm, rotations (timers (page s)) = [tm] ∧ timeout_ (this s) = Some (handle tm)
}.

(** The host has a word element to spare for every pending removal, and a
    stored handle is the handle of a pending timer. *)
Record healthy (s : Sys) : Prop := mk_healthy {
  healthy_spans : length (removals (timers (page s))) < span_count s;
  healthy_armed : ∀ h, timeout_ (this s) = Some h -> rotations (timers (page s)) ≠ []
}.

(** What no event changes. *)
Definition same_setup (s s' : Sys) : Prop :=
  words_ (this s') = words_ (this s) ∧
  body_classList (page s') = body_classList (page s).

(** Projections of the states the events compute. *)
Ltac project :=
  cbn [scheduled cleared at_time popped rotated stranded removed report
       page this timers host next_handle timeout_ currentIndex_ words_
       with_timers with_now with_host with_next_node with_error
       upd_timeout_ from_option].

(** ** Pages to run the model on *)

Definition zero_random : Random := {| random_value := 0; random_range := eq_refl |}.
Definition half_random : Random := {| random_value := 1 # 2; random_range := eq_refl |}.

Definition span (id : nat) (text : string) : Node :=
  {| node_id := id; localName := "span"; textContent := text; classList := [] |}.

Definition demo_host : Element :=
  {| dataset_words := Some "Alpha,Beta,Gamma"; childNodes := [span 0 "Alpha"] |}.

Definition demo_page : Page :=
  initial_page 0 (Some demo_host) [] (λ _, zero_random).

(** A page to run the model on: three words, the first one displayed. *)
Definition demo_start : Sys := window_load demo_page.

(** The first three rotations of the demo page, each removal firing when it
    is due. *)
Definition demo_run : Sys :=
  let rotate t h := fire t {| handle := h; due := t; callback := CbRotateWord |} in
  let remove t h id := fire t {| handle := h; due := t; callback := CbRemoveChild id |} in
  rotate 7500 5%positive
    (remove 5400 4%positive 1
       (rotate 5000 3%positive
          (remove 2900 2%positive 0
             (rotate 2500 1%positive demo_start)))).

(** A host with words but without a word element. *)
Definition bare_host : Element :=
  {| dataset_words := Some "Alpha,Beta,Gamma"; childNodes := [] |}.

Definition bare_start : Sys :=
  window_load (initial_page 0 (Some bare_host) [] (λ _, zero_random)).

(** ** Results of [Math.random] that select a given index *)






(** A stored handle was handed out before, and no removal timer bears it. *)
Definition handle_known (s : Sys) : Prop :=
  ∀ h, timeout_ (this s) = Some h ->
       (h < next_handle (page s))%positive ∧
       ∀ tm, tm ∈ timers (page s) -> handle tm = h -> is_rotation tm.

(** ** The word on display *)

(** The text a word element shows for an array slot: the [textContent]
    setter turns [undefined] into the empty string. *)
Definition word_text (v : jsval) : string :=
  match v with str w => w | undefined => EmptyString end.

(** Every pending removal aims at an element created before [limit]. *)
Definition removal_targets_below (limit : nat) (ts : list Timer) : Prop :=
  ∀ tm id, tm ∈ ts -> callback tm = CbRemoveChild id -> id < limit.

(** The identities of the children of the host and of the targets of the
    pending removals are below the next identity. *)
Definition ids_fresh (s : Sys) : Prop :=
  Forall (λ n, node_id n < next_node (page s))
         (from_option childNodes [] (host (page s))) ∧
  removal_targets_below (next_node (page s)) (timers (page s)).

(** The element the last rotation created, as it is while it is the
    newest. *)
Definition newest (s : Sys) : Node :=
  {| node_id := pred (next_node (page s)); localName := "span";
     textContent := word_text (array_get (words_ (this s)) (currentIndex_ (this s)));
     classList := [CLASSES.ENTERING; CLASSES.ACTIVE] |}.

(** The newest element is the last child of the host, and no pending
    removal aims at it. *)
Definition shows_newest (s : Sys) : Prop :=
  0 < next_node (page s) ∧
  (∃ older, from_option childNodes [] (host (page s)) = older ++ [newest s]) ∧
  removal_targets_below (pred (next_node (page s))) (timers (page s)).

(** Projections that reach the identities of the elements as well. *)
Ltac project_nodes :=
  cbn [scheduled cleared at_time popped rotated stranded removed report
       page this timers host next_handle next_node now timeout_ currentIndex_
       words_ interval_ duration_ console_errors
       with_timers with_now with_host with_next_node with_error
       upd_timeout_ from_option].

(** ** Timers that fire in order *)

(** The timer [tm] would overtake a pending timer that was set before it
    and is due before it. *)
Definition overtakes (tm : Timer) (ts : list Timer) : Prop :=
  ∃ x, x ∈ ts ∧ (handle x < handle tm)%positive ∧ due x < due tm.

(** Runs in which no timer overtakes: a timer fires only when every pending
    timer that was set earlier and is due earlier has fired. *)
Inductive reaches_in_order (s0 : Sys) : nat -> Sys -> Prop :=
| in_order_start : reaches_in_order s0 0 s0
| in_order_click k s t :
    reaches_in_order s0 k s -> now (page s) ≤ t ->
    reaches_in_order s0 k (click t s)
| in_order_rotate k s t tm :
    reaches_in_order s0 k s -> tm ∈ timers (page s) -> callback tm = CbRotateWord ->
    now (page s) ≤ t -> due tm ≤ t -> ¬ overtakes tm (timers (page s)) ->
    reaches_in_order s0 (S k) (fire t tm s)
| in_order_remove k s t tm previousWordEl :
    reaches_in_order s0 k s -> tm ∈ timers (page s) ->
    callback tm = CbRemoveChild previousWordEl ->
    now (page s) ≤ t -> due tm ≤ t -> ¬ overtakes tm (timers (page s)) ->
    reaches_in_order s0 k (fire t tm s).

(** What holds between events when timers fire in order: a pending removal
    is due within the transition duration and before the pending rotation,
    there is at most one, its element is in the host, and no callback has
    thrown. *)
Record orderly (s : Sys) : Prop := mk_orderly {
  orderly_due :
    ∀ x, x ∈ timers (page s) -> ¬ is_rotation x -> due x ≤ now (page s) + 400;
  orderly_before :
    ∀ x r, x ∈ timers (page s) -> r ∈ timers (page s) ->
           ¬ is_rotation x -> is_rotation r ->
           (handle x < handle r)%positive ∧ due x < due r;
  orderly_one :
    removals (timers (page s)) = [] ∨
    ∃ x id e, removals (timers (page s)) = [x] ∧ callback x = CbRemoveChild id ∧
              host (page s) = Some e ∧ attached id e;
  orderly_quiet : console_errors (page s) = []
}.

(** The children of the host have distinct identities, every pending
    removal aims at a word element of the host, and the host has one word
    element per pending removal on top of the [m] it keeps. *)
Record tidy (m : nat) (s : Sys) : Prop := mk_tidy {
  tidy_nodup : NoDup (node_id <$> from_option childNodes [] (host (page s)));
  tidy_count : span_count s = m + length (removals (timers (page s)));
  tidy_target :
    ∀ x id, x ∈ timers (page s) -> callback x = CbRemoveChild id ->
            ∃ n, n ∈ from_option childNodes [] (host (page s)) ∧
                 node_id n = id ∧ is_span n
}.

(** [overtakes], as a test that computes. *)
Definition overtakesb (tm : Timer) (ts : list Timer) : bool :=
  existsb (λ x, (handle x <? handle tm)%positive && (due x <? due tm)) ts.

(** The demo page unfolds before the functions applied to it. *)
Strategy expand [demo_page demo_start].

(** * Properties of the model *)

(** ** Arrays *)

Lemma array_set_in_range (array : list jsval) i v :
  (i < length array)%nat -> array_set array i v = <[i:=v]> array.
Proof. intros Hi. unfold array_set. by rewrite decide_True. Qed.


(** Writing [x] over slot [j] and keeping the old content of the slot in
    front is a rearrangement. *)
Lemma insert_keep_perm (l : list jsval) j x :
  (j < length l)%nat -> array_get l j :: <[j:=x]> l ≡ₚ x :: l.
Proof.
  revert j. induction l as [|y l IH]; intros [|j] Hj; simpl in *; try lia.
  - apply perm_swap.
  - unfold array_get in *. simpl.
    rewrite (perm_swap y). rewrite IH by lia. apply perm_swap.
Qed.

(** The exchange of two slots of [shuffleArray_]. *)
Lemma array_swap_perm (array : list jsval) i j :
  (i < length array)%nat -> (j < length array)%nat ->
  array_set (array_set array i (array_get array j)) j (array_get array i) ≡ₚ array.
Proof.
  intros Hi Hj.
  rewrite (array_set_in_range array) by done.
  rewrite array_set_in_range by (by rewrite length_insert).
  revert i j Hi Hj. induction array as [|x l IH]; intros i j Hi Hj; simpl in *; [lia|].
  destruct i as [|i], j as [|j]; simpl.
  - done.
  - change (array_get (x :: l) (S j)) with (array_get l j).
    apply insert_keep_perm. lia.
  - change (array_get (x :: l) (S i)) with (array_get l i).
    apply insert_keep_perm. lia.
  - change (array_get (x :: l) (S j)) with (array_get l j).
    change (array_get (x :: l) (S i)) with (array_get l i).
    f_equiv. apply IH; lia.
Qed.

(** ** [Math.floor(Math.random() * counter)] is an index below [counter] *)

Lemma random_index_lt (r : Random) counter :
  (0 < counter)%nat -> (random_index (random_value r) counter < counter)%nat.
Proof.
  intros Hc. destruct r as [q Hq]. simpl.
  unfold in_unit_interval in Hq. apply andb_prop in Hq as [H0 H1].
  apply Qle_bool_iff in H0. apply negb_true_iff in H1.
  assert (Hlt : (q < 1)%Q).
  { apply Qnot_le_lt. intros Hle. apply Qle_bool_iff in Hle. congruence. }
  unfold random_index, Math_floor.
  set (c := inject_Z (Z.of_nat counter)).
  assert (Hcpos : (0 < c)%Q).
  { unfold c. change 0%Q with (inject_Z 0). rewrite <- Zlt_Qlt. lia. }
  assert (Hlo : (0 <= Qfloor (q * c))%Z).
  { change 0%Z with (Qfloor 0). apply Qfloor_resp_le.
    apply Qmult_le_0_compat; [done|]. by apply Qlt_le_weak. }
  assert (Hhi : (Qfloor (q * c) < Z.of_nat counter)%Z).
  { rewrite Zlt_Qlt. eapply Qle_lt_trans; [apply Qfloor_le|].
    fold c. rewrite <- (Qmult_1_l c) at 2.
    apply Qmult_lt_compat_r; done. }
  lia.
Qed.

(** ** The shuffle *)

Lemma same_but_random_refl s : same_but_random s s.
Proof. by split. Qed.

Lemma same_but_random_trans s1 s2 s3 :
  same_but_random s1 s2 -> same_but_random s2 s3 -> same_but_random s1 s3.
Proof. intros [? ?] [? ?]. split; congruence. Qed.

Lemma shuffle_loop_step counter array s :
  shuffle_loop (S counter) array s =
  let index :=
    random_index (random_value (random_source (page s) (random_calls (page s))))
                 (S counter) in
  shuffle_loop counter
    (array_set (array_set array counter (array_get array index)) index
               (array_get array counter))
    {| page := with_random_calls (S (random_calls (page s))) (page s);
       this := this s |}.
Proof. reflexivity. Qed.

Lemma shuffle_loop_perm counter : ∀ array s,
  (counter ≤ length array)%nat ->
  ∃ s' array', shuffle_loop counter array s = (s', Normal array') ∧
               array' ≡ₚ array ∧ same_but_random s s'.
Proof.
  induction counter as [|counter IH]; intros array s Hlen.
  - exists s, array. split; [done|]. split; [done|apply same_but_random_refl].
  - rewrite shuffle_loop_step. cbv zeta.
    set (index := random_index _ _).
    assert (Hindex : (index < S counter)%nat) by (apply random_index_lt; lia).
    set (array1 := array_set (array_set array counter _) index _).
    assert (Hperm : array1 ≡ₚ array) by (apply array_swap_perm; lia).
    destruct (IH array1 {| page := with_random_calls (S (random_calls (page s))) (page s);
                           this := this s |}) as (s' & array' & Hrun & Hp & Hsame).
    { rewrite (Permutation_length Hperm). lia. }
    exists s', array'. split; [done|]. split; [by rewrite Hp|].
    eapply same_but_random_trans; [|exact Hsame]. by split.
Qed.

Lemma shuffleArray_perm array s :
  ∃ s' array', shuffleArray_ array s = (s', Normal array') ∧
               array' ≡ₚ array ∧ same_but_random s s'.
Proof. apply shuffle_loop_perm. done. Qed.

Lemma arrange_spec words s :
  ∃ s' shuffled, arrange words s = (s', Normal (array_get words 0 :: shuffled)) ∧
                 shuffled ≡ₚ drop 1 words ∧ same_but_random s s'.
Proof.
  destruct (shuffleArray_perm (slice1 words) s) as (s' & shuffled & Hrun & Hp & Hsame).
  exists s', shuffled. split; [|done].
  unfold arrange, mbind, JS_bind. by rewrite Hrun.
Qed.

(** ** What the methods compute *)

Lemma scheduleWord_run s : scheduleWord_ s = (scheduled s, Normal tt).
Proof. reflexivity. Qed.

Lemma toggleAnimation_run e s :
  toggleAnimation_ e s =
  (match timeout_ (this s) with
   | Some h => cleared h s
   | None => scheduled s
   end, Normal (preventDefault e)).
Proof.
  unfold toggleAnimation_. cbv [mbind JS_bind get_this].
  destruct (timeout_ (this s)) as [h|]; reflexivity.
Qed.

Lemma click_run t s :
  host_listeners (page s) = [ToggleAnimation] ->
  click t s = match timeout_ (this s) with
              | Some h => cleared h (at_time t s)
              | None => scheduled (at_time t s)
              end.
Proof.
  intros Hl. unfold click, dispatch_click. simpl. rewrite Hl. simpl.
  rewrite toggleAnimation_run. reflexivity.
Qed.

Lemma appendChild_run n s e :
  host (page s) = Some e ->
  appendChild (Some HostEl) n s =
  ({| page := with_host (element_append n e) (page s); this := this s |}, Normal tt).
Proof.
  intros He. unfold appendChild, deref. cbv [mbind JS_bind get_page].
  by rewrite He.
Qed.

Lemma classList_add_run id token s e :
  host (page s) = Some e ->
  classList_add id token s =
  ({| page := with_host (element_add_class id token e) (page s); this := this s |},
   Normal tt).
Proof.
  intros He. unfold classList_add. cbv [mbind JS_bind get_page].
  by rewrite He.
Qed.

Lemma rotateWord_run s e previous :
  el_ (this s) = Some HostEl -> host (page s) = Some e ->
  head (filter is_span (childNodes e)) = Some previous ->
  rotateWord_ s = (rotated e (node_id previous) s, Normal tt).
Proof.
  intros Hel Hhost Hprev.
  unfold rotateWord_. cbv [mbind JS_bind get_this querySelector_span deref get_page mret JS_ret].
  rewrite Hel, Hhost, Hprev. simpl.
  erewrite appendChild_run by (simpl; eassumption).
  erewrite classList_add_run by reflexivity.
  erewrite classList_add_run by reflexivity.
  reflexivity.
Qed.

Lemma rotateWord_throws s e :
  el_ (this s) = Some HostEl -> host (page s) = Some e ->
  head (filter is_span (childNodes e)) = None ->
  rotateWord_ s = (stranded e s, Throw (cannot_read "classList")).
Proof.
  intros Hel Hhost Hprev.
  unfold rotateWord_. cbv [mbind JS_bind get_this querySelector_span deref get_page mret JS_ret].
  rewrite Hel, Hhost, Hprev. simpl.
  erewrite appendChild_run by (simpl; eassumption).
  erewrite classList_add_run by reflexivity.
  reflexivity.
Qed.

Lemma buildWords_run s e :
  el_ (this s) = Some HostEl -> host (page s) = Some e ->
  ∃ s' ws, buildWords_ s = (s', Normal ws) ∧ same_but_random s s' ∧ built e ws.
Proof.
  intros Hel Hhost. unfold buildWords_, built.
  cbv [mbind JS_bind get_this deref get_page mret JS_ret].
  rewrite Hel, Hhost.
  destruct (falsy (dataset_words e)).
  - exists s, []. split; [done|]. split; [apply same_but_random_refl|done].
  - set (words := str <$> split comma (default EmptyString (dataset_words e))).
    destruct (arrange_spec words s) as (s' & shuffled & Hrun & Hp & Hsame).
    exists s', (array_get words 0 :: shuffled).
    split; [done|]. split; [done|]. by exists shuffled.
Qed.


Lemma initialize_run pg e :
  host pg = Some e ->
  ∃ pg' ws,
    initialize {| page := pg; this := blank |} = (constructed ws pg', Normal tt) ∧
    with_random_calls 0 pg' = with_random_calls 0 pg ∧ built e ws.
Proof.
  intros Hhost.
  destruct (buildWords_run {| page := pg; this := upd_el_ (Some HostEl) blank |} e)
    as (s' & ws & Hrun & [Hthis Hpage] & Hbuilt); [done|done|].
  destruct s' as [pg' r']. simpl in Hthis, Hpage. subst r'.
  exists pg', ws. split; [|done].
  unfold initialize, querySelector_rotator, DacWordRotator_new.
  cbv [mbind JS_bind get_page mret JS_ret page]. rewrite Hhost.
  change (assign_el_ (Some HostEl) {| page := pg; this := blank |})
    with ({| page := pg; this := upd_el_ (Some HostEl) blank |}, Normal tt).
  cbv beta iota. rewrite Hrun.
  assert (Hh : host pg' = Some e).
  { apply (f_equal host) in Hpage. simpl in Hpage. congruence. }
  unfold addEventListener_click, deref. cbv [mbind JS_bind get_page get_this mret JS_ret].
  simpl. rewrite Hh. reflexivity.
Qed.

Lemma fire_run t tm s :
  fire t tm s = run_callback (callback_body (callback tm)) (popped t tm s).
Proof. reflexivity. Qed.

Lemma removeChild_run id s e :
  host (page s) = Some e ->
  parentNode_removeChild id s =
  if decide (attached id e)
  then ({| page := with_host (element_remove id e) (page s); this := this s |}, Normal tt)
  else (s, Throw (cannot_read "removeChild")).
Proof.
  intros He. unfold parentNode_removeChild. cbv [mbind JS_bind get_page].
  rewrite He. by destruct (decide (attached id e)).
Qed.

(** ** Timers *)

Lemma fresh_timers_nil next : fresh_timers [] next.
Proof. split; constructor. Qed.

Lemma fresh_timers_snoc ts next d cb :
  fresh_timers ts next ->
  fresh_timers (ts ++ [{| handle := next; due := d; callback := cb |}]) (Pos.succ next).
Proof.
  intros [Hnd Hlt]. split.
  - rewrite fmap_app. apply NoDup_app. split; [done|]. split.
    + intros h Hh Hin. apply list_elem_of_singleton in Hin. simpl in Hin. subst h.
      apply list_elem_of_fmap in Hh as (tm & Heq & Htm).
      rewrite Forall_forall in Hlt. specialize (Hlt tm Htm). lia.
    + apply NoDup_singleton.
  - apply Forall_app. split.
    + eapply Forall_impl; [exact Hlt|]. intros tm Htm. simpl in Htm. lia.
    + constructor; [simpl; lia|constructor].
Qed.

Lemma fresh_timers_filter (P : Timer -> Prop) `{∀ tm, Decision (P tm)} ts next :
  fresh_timers ts next -> fresh_timers (filter P ts) next.
Proof.
  intros [Hnd Hlt]. split.
  - induction ts as [|tm ts IH]; [done|].
    rewrite fmap_cons in Hnd. apply NoDup_cons in Hnd as [Hnotin Hnd].
    apply Forall_cons in Hlt as [_ Hlt].
    rewrite filter_cons. destruct (decide (P tm)); [|by apply IH].
    rewrite fmap_cons. apply NoDup_cons. split; [|by apply IH].
    intros Hin. apply Hnotin.
    apply list_elem_of_fmap in Hin as (tm' & Heq & Htm').
    apply list_elem_of_filter in Htm' as [_ Htm'].
    rewrite Heq. by apply list_elem_of_fmap_2.
  - rewrite Forall_forall in Hlt. apply Forall_forall. intros tm Htm.
    apply list_elem_of_filter in Htm as [_ Htm]. by apply Hlt.
Qed.

Lemma fresh_timers_handle_inj ts next tm tm' :
  fresh_timers ts next -> tm ∈ ts -> tm' ∈ ts -> handle tm = handle tm' -> tm = tm'.
Proof.
  intros [Hnd _]. induction ts as [|x ts IH]; intros Htm Htm' Heq.
  - by apply elem_of_nil in Htm.
  - rewrite fmap_cons in Hnd. apply NoDup_cons in Hnd as [Hnotin Hnd].
    apply elem_of_cons in Htm as [->|Htm]; apply elem_of_cons in Htm' as [->|Htm'].
    + done.
    + exfalso. apply Hnotin. rewrite Heq. by apply list_elem_of_fmap_2.
    + exfalso. apply Hnotin. rewrite <- Heq. by apply list_elem_of_fmap_2.
    + by apply IH.
Qed.

Lemma rotations_filter (P : Timer -> Prop) `{∀ tm, Decision (P tm)} ts :
  rotations (filter P ts) = filter P (rotations ts).
Proof.
  unfold rotations. induction ts as [|tm ts IH]; [done|].
  rewrite !filter_cons.
  destruct (decide (P tm)), (decide (is_rotation tm));
    rewrite ?filter_cons, ?decide_True, ?decide_False by done; by rewrite ?IH.
Qed.

Lemma rotations_snoc_rotation ts h d :
  rotations (ts ++ [{| handle := h; due := d; callback := CbRotateWord |}]) =
  rotations ts ++ [{| handle := h; due := d; callback := CbRotateWord |}].
Proof. unfold rotations. by rewrite filter_app. Qed.

Lemma rotations_snoc_removal ts h d previous :
  rotations (ts ++ [{| handle := h; due := d; callback := CbRemoveChild previous |}]) =
  rotations ts.
Proof. unfold rotations. rewrite filter_app. apply app_nil_r. Qed.

Lemma removals_filter_le (P : Timer -> Prop) `{∀ tm, Decision (P tm)} ts :
  (length (removals (filter P ts)) ≤ length (removals ts))%nat.
Proof.
  unfold removals. induction ts as [|tm ts IH]; [done|].
  rewrite !filter_cons.
  destruct (decide (P tm)), (decide (¬ is_rotation tm));
    rewrite ?filter_cons, ?decide_True, ?decide_False by done; simpl; lia.
Qed.

(** A removal timer that fires leaves the table. *)
Lemma removals_pop_lt tm ts :
  tm ∈ ts -> ¬ is_rotation tm ->
  (length (removals (filter (λ x, handle x ≠ handle tm) ts)) < length (removals ts))%nat.
Proof.
  intros Htm Hrem. unfold removals. induction ts as [|x ts IH].
  - by apply elem_of_nil in Htm.
  - apply elem_of_cons in Htm as [<-|Htm].
    + rewrite (filter_cons_False (λ x, handle x ≠ handle tm)) by (intros Hne; by apply Hne).
      rewrite (filter_cons_True (λ x, ¬ is_rotation x)) by done. simpl.
      pose proof (removals_filter_le (λ x, handle x ≠ handle tm) ts) as Hle.
      unfold removals in Hle. lia.
    + specialize (IH Htm). rewrite !filter_cons.
      destruct (decide (handle x ≠ handle tm)), (decide (¬ is_rotation x));
        rewrite ?filter_cons, ?decide_True, ?decide_False by done; simpl; lia.
Qed.

Lemma removals_snoc_rotation ts h d :
  removals (ts ++ [{| handle := h; due := d; callback := CbRotateWord |}]) = removals ts.
Proof.
  unfold removals. rewrite filter_app.
  rewrite (filter_cons_False _ _ []) by (intros Hn; by apply Hn).
  apply app_nil_r.
Qed.

Lemma removals_snoc_removal ts h d previous :
  removals (ts ++ [{| handle := h; due := d; callback := CbRemoveChild previous |}]) =
  removals ts ++ [{| handle := h; due := d; callback := CbRemoveChild previous |}].
Proof. unfold removals. by rewrite filter_app. Qed.

(** ** What the events compute *)

Lemma fire_rotation_run t tm s e :
  el_ (this s) = Some HostEl -> host (page s) = Some e -> is_rotation tm ->
  fire t tm s =
  match head (filter is_span (childNodes e)) with
  | Some previous => rotated e (node_id previous) (popped t tm s)
  | None => report (cannot_read "classList") (stranded e (popped t tm s))
  end.
Proof.
  intros Hel Hhost Hrot. rewrite fire_run. unfold is_rotation in Hrot. rewrite Hrot.
  unfold run_callback, callback_body.
  destruct (head (filter is_span (childNodes e))) as [previous|] eqn:Hprev.
  - by erewrite rotateWord_run.
  - by erewrite rotateWord_throws.
Qed.

Lemma fire_removal_run t tm s e id :
  host (page s) = Some e -> callback tm = CbRemoveChild id ->
  fire t tm s =
  if decide (attached id e)
  then removed id e (popped t tm s)
  else report (cannot_read "removeChild") (popped t tm s).
Proof.
  intros Hhost Hcb. rewrite fire_run, Hcb.
  unfold run_callback, callback_body.
  erewrite removeChild_run by (simpl; eassumption).
  by destruct (decide (attached id e)).
Qed.

(** ** Word elements of the host *)

Lemma spans_add_class id token e :
  length (filter is_span (childNodes (element_add_class id token e))) =
  length (filter is_span (childNodes e)).
Proof.
  simpl. induction (childNodes e) as [|n ns IH]; [done|].
  rewrite fmap_cons, !filter_cons.
  assert (Hiff : is_span (if decide (node_id n = id) then node_add_class token n else n)
                 ↔ is_span n) by (by destruct (decide (node_id n = id))).
  destruct (decide (is_span n)) as [Hs|Hs].
  - rewrite decide_True by (by apply Hiff). simpl. by rewrite IH.
  - rewrite decide_False by (by rewrite Hiff). done.
Qed.

Lemma spans_append n e :
  is_span n ->
  length (filter is_span (childNodes (element_append n e))) =
  S (length (filter is_span (childNodes e))).
Proof.
  intros Hn. simpl. rewrite filter_app, length_app.
  rewrite filter_cons_True by done. simpl. lia.
Qed.

Lemma spans_remove id e :
  length (filter is_span (childNodes e)) ≤
  S (length (filter is_span (childNodes (element_remove id e)))).
Proof.
  simpl. induction (childNodes e) as [|n ns IH]; [simpl; lia|].
  simpl. destruct (decide (node_id n = id)).
  - rewrite filter_cons. destruct (decide (is_span n)); simpl; lia.
  - rewrite !filter_cons. destruct (decide (is_span n)); simpl; lia.
Qed.

Lemma spans_entered s e :
  length (filter is_span (childNodes (entered s e))) =
  S (length (filter is_span (childNodes e))).
Proof. unfold entered. rewrite spans_add_class. by apply spans_append. Qed.

(** ** The wrap of the index *)

Lemma next_index_mod i n : i < n -> next_index i n = (i + 1) mod n.
Proof.
  intros Hi. unfold next_index. destruct (decide (i + 1 = n)) as [Heq|Hne].
  - rewrite Heq. symmetry. apply Nat.Div0.mod_same.
  - symmetry. apply Nat.mod_small. lia.
Qed.

Lemma next_index_step k n : 0 < n -> next_index (k mod n) n = S k mod n.
Proof.
  intros Hn. rewrite next_index_mod by (apply Nat.mod_upper_bound; lia).
  rewrite Nat.Div0.add_mod_idemp_l. f_equal. lia.
Qed.


(** ** Invariants of a constructed instance *)

Lemma same_setup_refl s : same_setup s s.
Proof. by split. Qed.

Lemma same_setup_trans s1 s2 s3 :
  same_setup s1 s2 -> same_setup s2 s3 -> same_setup s1 s3.
Proof. intros [? ?] [? ?]. split; congruence. Qed.

Lemma bound_no_rotation_paused s :
  bound s -> timeout_ (this s) = None -> rotations (timers (page s)) = [].
Proof. intros Hb Hnone. destruct (bound_timer s Hb) as [?|(tm & _ & ?)]; [done|congruence]. Qed.

Lemma bound_click t s : bound s -> bound (click t s) ∧ same_setup s (click t s).
Proof.
  intros Hb. rewrite click_run by apply Hb.
  destruct (timeout_ (this s)) as [h|] eqn:Hto.
  - split; [|done]. destruct Hb. constructor; simpl; try done.
    + by apply fresh_timers_filter.
    + left. rewrite rotations_filter.
      destruct bound_timer0 as [->|(tm & -> & Htm)]; [done|].
      rewrite filter_cons_False; [done|]. intros Hne. apply Hne. congruence.
  - split; [|done]. pose proof (bound_no_rotation_paused s Hb Hto) as Hrot.
    destruct Hb. constructor; simpl; try done.
    + by apply fresh_timers_snoc.
    + right. eexists. rewrite rotations_snoc_rotation, Hrot. done.
Qed.

Lemma bound_popped t tm s :
  bound s -> tm ∈ timers (page s) -> bound (popped t tm s).
Proof.
  intros Hb Htm. destruct Hb. constructor; simpl; try done.
  - by apply fresh_timers_filter.
  - rewrite rotations_filter.
    destruct bound_timer0 as [->|(tm' & -> & Htm')]; [by left|].
    rewrite filter_cons. destruct (decide (handle tm' ≠ handle tm)); [|by left].
    right. by exists tm'.
Qed.

Lemma popped_rotation t tm s :
  bound s -> tm ∈ timers (page s) -> is_rotation tm ->
  rotations (timers (page (popped t tm s))) = [].
Proof.
  intros Hb Htm Hrot. simpl. rewrite rotations_filter.
  assert (Hin : tm ∈ rotations (timers (page s))) by (by apply list_elem_of_filter).
  destruct (bound_timer s Hb) as [Hnil|(tm' & Heq & _)].
  - rewrite Hnil in Hin. by apply elem_of_nil in Hin.
  - rewrite Heq in Hin |- *. apply list_elem_of_singleton in Hin. subst tm'.
    rewrite filter_cons_False; [done|]. intros Hne. by apply Hne.
Qed.

Lemma bound_report x s : bound s -> bound (report x s).
Proof. intros Hb. destruct Hb. by constructor. Qed.

Lemma bound_fire t tm s :
  bound s -> tm ∈ timers (page s) -> bound (fire t tm s) ∧ same_setup s (fire t tm s).
Proof.
  intros Hb Htm. destruct (bound_host s Hb) as [e He].
  pose proof (bound_popped t tm s Hb Htm) as Hp.
  destruct (decide (is_rotation tm)) as [Hrot|Hrem].
  - pose proof (popped_rotation t tm s Hb Htm Hrot) as Hnil.
    rewrite (fire_rotation_run t tm s e) by (done || apply Hb).
    destruct (head (filter is_span (childNodes e))) as [previous|].
    + split; [|done]. destruct Hp. constructor; simpl; try done.
      * simpl in bound_fresh0. by do 2 apply fresh_timers_snoc.
      * right. eexists. simpl in Hnil.
        rewrite rotations_snoc_rotation, rotations_snoc_removal, Hnil. done.
    + split; [|done]. apply bound_report. destruct Hp. constructor; simpl; try done;
        by left.
  - destruct (callback tm) as [|id] eqn:Hcb; [done|].
    rewrite (fire_removal_run t tm s e id) by done.
    destruct (decide (attached id e)).
    + split; [|done]. destruct Hp. by constructor.
    + split; [|done]. by apply bound_report.
Qed.

Lemma healthy_click t s :
  bound s -> healthy s ->
  healthy (click t s) ∧ currentIndex_ (this (click t s)) = currentIndex_ (this s).
Proof.
  intros Hb [Hspans Harmed]. rewrite click_run by apply Hb.
  destruct (timeout_ (this s)) as [h|] eqn:Hto.
  - split; [|done]. constructor; [|done].
    unfold span_count in *. project.
    pose proof (removals_filter_le (λ tm, handle tm ≠ h) (timers (page s))). lia.
  - split; [|done]. constructor.
    + unfold span_count in *. project. by rewrite removals_snoc_rotation.
    + intros h _. project. rewrite rotations_snoc_rotation.
      intros Hnil. by apply app_eq_nil in Hnil as [_ ?].
Qed.

Lemma healthy_fire_rotation t tm s :
  bound s -> healthy s -> tm ∈ timers (page s) -> is_rotation tm ->
  healthy (fire t tm s) ∧
  currentIndex_ (this (fire t tm s)) =
    next_index (currentIndex_ (this s)) (length (words_ (this s))).
Proof.
  intros Hb [Hspans Harmed] Htm Hrot. destruct (bound_host s Hb) as [e He].
  rewrite (fire_rotation_run t tm s e) by (done || apply Hb).
  unfold span_count in Hspans. rewrite He in Hspans. cbn [from_option] in Hspans.
  destruct (filter is_span (childNodes e)) as [|previous spans] eqn:Hfilter;
    [simpl in Hspans; lia|].
  cbn [head]. split; [|done]. constructor.
  - unfold span_count. project.
    rewrite spans_add_class, spans_entered, Hfilter.
    rewrite removals_snoc_rotation, removals_snoc_removal, length_app.
    pose proof (removals_filter_le (λ x, handle x ≠ handle tm) (timers (page s))).
    cbn [length] in *. lia.
  - intros h _. project. rewrite rotations_snoc_rotation.
    intros Hnil. by apply app_eq_nil in Hnil as [_ ?].
Qed.

Lemma healthy_fire_removal t tm s :
  bound s -> healthy s -> tm ∈ timers (page s) -> ¬ is_rotation tm ->
  healthy (fire t tm s) ∧ currentIndex_ (this (fire t tm s)) = currentIndex_ (this s).
Proof.
  intros Hb [Hspans Harmed] Htm Hrem. destruct (bound_host s Hb) as [e He].
  destruct (callback tm) as [|id] eqn:Hcb; [done|].
  rewrite (fire_removal_run t tm s e id) by done.
  pose proof (removals_pop_lt tm (timers (page s)) Htm Hrem) as Hlt.
  assert (Hkeep : ∀ h, timeout_ (this s) = Some h ->
            rotations (filter (λ x, handle x ≠ handle tm) (timers (page s))) ≠ []).
  { intros h Hh. specialize (Harmed h Hh). rewrite rotations_filter.
    destruct (bound_timer s Hb) as [?|(tm' & Heq & _)]; [done|].
    assert (Hin : tm' ∈ rotations (timers (page s))) by (rewrite Heq; apply list_elem_of_here).
    apply list_elem_of_filter in Hin as [Hrot' Hin].
    rewrite Heq, filter_cons_True; [done|].
    intros Hhandle. apply Hrem.
    by rewrite <- (fresh_timers_handle_inj _ _ tm' tm (bound_fresh s Hb) Hin Htm Hhandle). }
  unfold span_count in Hspans. rewrite He in Hspans. cbn [from_option] in Hspans.
  destruct (decide (attached id e)).
  - split; [|done]. constructor; [|done].
    unfold span_count. project.
    pose proof (spans_remove id e) as Hle. lia.
  - split; [|done]. constructor; [|done].
    unfold span_count. project. rewrite He. cbn [from_option]. lia.
Qed.

(** *** Along every run *)

Lemma reaches_bound s0 k s :
  bound s0 -> reaches s0 k s -> bound s ∧ same_setup s0 s.
Proof.
  intros Hb0. induction 1 as [|k s t Hreach [Hb Hsame] Ht
                              |k s t tm Hreach [Hb Hsame] Htm Hcb Ht Hdue
                              |k s t tm id Hreach [Hb Hsame] Htm Hcb Ht Hdue].
  - split; [done|apply same_setup_refl].
  - destruct (bound_click t s Hb). split; [done|]. by eapply same_setup_trans.
  - destruct (bound_fire t tm s Hb Htm). split; [done|]. by eapply same_setup_trans.
  - destruct (bound_fire t tm s Hb Htm). split; [done|]. by eapply same_setup_trans.
Qed.

Lemma reaches_healthy s0 k s :
  bound s0 -> healthy s0 -> reaches s0 k s ->
  healthy s ∧
  currentIndex_ (this s) =
    Nat.iter k (λ i, next_index i (length (words_ (this s0)))) (currentIndex_ (this s0)).
Proof.
  intros Hb0 Hh0. induction 1 as [|k s t Hreach [Hh Hidx] Ht
                                  |k s t tm Hreach [Hh Hidx] Htm Hcb Ht Hdue
                                  |k s t tm id Hreach [Hh Hidx] Htm Hcb Ht Hdue].
  - done.
  - destruct (reaches_bound s0 k s Hb0 Hreach) as [Hb _].
    destruct (healthy_click t s Hb Hh) as [? Heq]. split; [done|]. by rewrite Heq.
  - destruct (reaches_bound s0 k s Hb0 Hreach) as [Hb [Hwords _]].
    destruct (healthy_fire_rotation t tm s Hb Hh Htm Hcb) as [? Heq].
    split; [done|]. rewrite Heq, Hwords, Hidx. done.
  - destruct (reaches_bound s0 k s Hb0 Hreach) as [Hb _].
    assert (Hrem : ¬ is_rotation tm) by (unfold is_rotation; by rewrite Hcb).
    destruct (healthy_fire_removal t tm s Hb Hh Htm Hrem) as [? Heq].
    split; [done|]. by rewrite Heq.
Qed.

Lemma iter_next_index k n :
  0 < n -> Nat.iter k (λ i, next_index i n) 0 = k mod n.
Proof.
  intros Hn. induction k as [|k IH].
  - simpl. symmetry. by apply Nat.mod_small.
  - simpl. rewrite IH. by apply next_index_step.
Qed.

(** ** The state after the load event *)

Lemma window_load_run t0 e body rnd :
  ∃ ws calls,
    built e ws ∧
    window_load (initial_page t0 (Some e) body rnd) =
    constructed ws (with_random_calls calls (initial_page t0 (Some e) body rnd)).
Proof.
  destruct (initialize_run (initial_page t0 (Some e) body rnd) e)
    as (pg' & ws & Hrun & Hpage & Hbuilt); [done|].
  exists ws, (random_calls pg'). split; [done|].
  unfold window_load, run_callback. rewrite Hrun. f_equal.
  destruct pg'. unfold with_random_calls in *. simpl in *.
  by injection Hpage as -> -> -> -> -> -> -> -> ->.
Qed.

Lemma constructed_bound t0 e body rnd ws calls :
  bound (constructed ws (with_random_calls calls (initial_page t0 (Some e) body rnd))).
Proof.
  constructor; simpl; try done.
  - apply (fresh_timers_snoc [] 1%positive). apply fresh_timers_nil.
  - right. by eexists.
Qed.

Lemma constructed_healthy t0 e body rnd ws calls :
  filter is_span (childNodes e) ≠ [] ->
  healthy (constructed ws (with_random_calls calls (initial_page t0 (Some e) body rnd))).
Proof.
  intros Hspan. constructor; [|done].
  unfold span_count. simpl. destruct (filter is_span (childNodes e)); [done|simpl; lia].
Qed.

(** In a healthy state the rotation cycle finds a previous word element. *)
Lemma healthy_has_previous s :
  healthy s ->
  ∃ e previous, host (page s) = Some e ∧
                head (filter is_span (childNodes e)) = Some previous.
Proof.
  intros [Hspans _]. unfold span_count in Hspans.
  destruct (host (page s)) as [e|]; [|simpl in Hspans; lia].
  simpl in Hspans. destruct (filter is_span (childNodes e)) as [|previous spans] eqn:Hf;
    [simpl in Hspans; lia|].
  exists e, previous. by rewrite Hf.
Qed.

Lemma built_length e w ws :
  dataset_words e = Some w -> w ≠ EmptyString -> built e ws ->
  length ws = length (split comma w).
Proof.
  intros Hw Hne. unfold built. rewrite Hw. simpl.
  rewrite bool_decide_eq_false_2 by done.
  intros (shuffled & -> & Hperm). simpl.
  rewrite (Permutation_length Hperm), length_drop, length_fmap.
  unfold split. destruct (split_tokens comma w). simpl. lia.
Qed.

Lemma split_nonempty w : 0 < length (split comma w).
Proof. unfold split. destruct (split_tokens comma w). simpl. lia. Qed.

Lemma demo_run_reaches : reaches demo_start 3 demo_run.
Proof.
  unfold demo_run.
  apply reaches_rotate; [|by vm_compute; repeat constructor|done|vm_compute; lia|simpl; lia].
  eapply reaches_remove; [|by vm_compute; repeat constructor|done|vm_compute; lia|simpl; lia].
  apply reaches_rotate; [|by vm_compute; repeat constructor|done|vm_compute; lia|simpl; lia].
  eapply reaches_remove; [|by vm_compute; repeat constructor|done|vm_compute; lia|simpl; lia].
  apply reaches_rotate; [|by vm_compute; repeat constructor|done|vm_compute; lia|simpl; lia].
  apply reaches_start.
Qed.

(** * The claims *)

(** ** Initialization without a host element *)

(** C1, as stated, fails: on a page without a [.dac-word-rotator] element
    the [load] listener does not complete normally. *)
Lemma initialize_without_host_counterexample :
  ¬ ∃ s, initialize {| page := initial_page 0 None [] (λ _, zero_random); this := blank |}
         = (s, Normal tt).
Proof. intros [s Hs]. vm_compute in Hs. discriminate. Qed.

(** C1, amended: when no element bears the rotator class, [initialize]
    passes [null] to the constructor, which throws a [TypeError] on reading
    [dataset] in [buildWords_].  The page is left as it was: no timer is
    armed, no listener is registered, the ready flag is not added; the
    exception reaches the console. *)
Theorem initialize_without_host t0 body rnd :
  let pg := initial_page t0 None body rnd in
  initialize {| page := pg; this := blank |} =
    ({| page := pg; this := blank |}, Throw (cannot_read "dataset")) ∧
  timers (page (window_load pg)) = [] ∧
  host_listeners (page (window_load pg)) = [] ∧
  body_classList (page (window_load pg)) = body ∧
  console_errors (page (window_load pg)) = [cannot_read "dataset"].
Proof. by repeat split. Qed.

(** ** Construction without words *)

(** C2, as stated, fails: without a [data-words] attribute the constructor
    still arms a timer, and when it fires the rotation cycle runs and arms
    the next one. *)
Lemma construct_without_words_counterexample :
  let e := {| dataset_words := None; childNodes := [span 0 "Alpha"] |} in
  let s := window_load (initial_page 0 (Some e) [] (λ _, zero_random)) in
  let tm := {| handle := 1; due := 2500; callback := CbRotateWord |} in
  words_ (this s) = [] ∧
  timeout_ (this s) = Some 1%positive ∧ timers (page s) = [tm] ∧
  currentIndex_ (this (fire 2500 tm s)) = 1 ∧
  timeout_ (this (fire 2500 tm s)) = Some 3%positive.
Proof. vm_compute. by repeat split. Qed.

(** C2, amended: for a host whose [data-words] attribute is absent or empty,
    construction yields an empty word list and completes without throwing;
    it arms the first rotation timer all the same, one interval (2500 ms)
    ahead, and stores its handle. *)
Theorem construct_without_words t0 e body rnd :
  falsy (dataset_words e) = true ->
  ∃ s, initialize {| page := initial_page t0 (Some e) body rnd; this := blank |}
       = (s, Normal tt) ∧
       words_ (this s) = [] ∧
       timeout_ (this s) = Some 1%positive ∧
       timers (page s) = [{| handle := 1; due := t0 + 2500; callback := CbRotateWord |}] ∧
       console_errors (page s) = [].
Proof.
  intros Hfalsy.
  destruct (initialize_run (initial_page t0 (Some e) body rnd) e)
    as (pg' & ws & Hrun & Hpage & Hbuilt); [done|].
  unfold built in Hbuilt. rewrite Hfalsy in Hbuilt. subst ws.
  exists (constructed [] pg'). split; [done|].
  destruct pg'. unfold with_random_calls in Hpage. simpl in Hpage.
  injection Hpage as -> -> -> -> -> -> -> -> ->. by repeat split.
Qed.

Lemma construct_without_words_witness :
  ∃ s, initialize {| page := initial_page 0 (Some {| dataset_words := Some EmptyString;
                                                     childNodes := [] |}) []
                               (λ _, half_random);
                     this := blank |}
       = (s, Normal tt) ∧
       words_ (this s) = [] ∧
       timeout_ (this s) = Some 1%positive ∧
       timers (page s) = [{| handle := 1; due := 0 + 2500; callback := CbRotateWord |}] ∧
       console_errors (page s) = [].
Proof. apply construct_without_words. reflexivity. Defined.

(** ** One rotation *)



(** ** The shuffle keeps the first word *)



(** ** Runs that start with the load event *)

Lemma loaded_bound t0 e body rnd k s :
  reaches (window_load (initial_page t0 (Some e) body rnd)) k s ->
  bound s ∧
  body_classList (page s) = token_add CLASSES.IS_READY body ∧
  built e (words_ (this s)).
Proof.
  destruct (window_load_run t0 e body rnd) as (ws & calls & Hbuilt & ->).
  intros Hreach.
  destruct (reaches_bound _ k s (constructed_bound t0 e body rnd ws calls) Hreach)
    as [Hb [Hwords Hbody]].
  split; [done|]. split; [done|]. by rewrite Hwords.
Qed.

Lemma loaded_healthy t0 e body rnd k s :
  filter is_span (childNodes e) ≠ [] ->
  reaches (window_load (initial_page t0 (Some e) body rnd)) k s ->
  healthy s ∧
  currentIndex_ (this s) =
    Nat.iter k (λ i, next_index i (length (words_ (this s)))) 0.
Proof.
  intros Hspan.
  destruct (window_load_run t0 e body rnd) as (ws & calls & Hbuilt & ->).
  intros Hreach.
  pose proof (constructed_bound t0 e body rnd ws calls) as Hb0.
  destruct (reaches_bound _ k s Hb0 Hreach) as [_ [Hwords _]].
  destruct (reaches_healthy _ k s Hb0 (constructed_healthy t0 e body rnd ws calls Hspan)
              Hreach) as [Hh Hidx].
  split; [done|]. by rewrite Hidx, Hwords.
Qed.

(** A click while no handle is stored arms a timer one full interval
    ahead. *)
Lemma click_paused t s :
  bound s -> timeout_ (this s) = None ->
  ∃ h, timeout_ (this (click t s)) = Some h ∧
       rotations (timers (page (click t s))) =
         [{| handle := h; due := t + 2500; callback := CbRotateWord |}] ∧
       console_errors (page (click t s)) = console_errors (page s).
Proof.
  intros Hb Hnone. rewrite click_run by apply Hb. rewrite Hnone.
  exists (next_handle (page s)). split; [done|]. split; [|done].
  project. rewrite rotations_snoc_rotation, (bound_no_rotation_paused s Hb Hnone).
  simpl. by rewrite (bound_interval s Hb).
Qed.

(** A click while a handle is stored cancels the timer and clears the
    handle. *)
Lemma click_running t s h :
  bound s -> timeout_ (this s) = Some h ->
  timeout_ (this (click t s)) = None ∧
  rotations (timers (page (click t s))) = [] ∧
  console_errors (page (click t s)) = console_errors (page s).
Proof.
  intros Hb Hsome. destruct (bound_click t s Hb) as [Hb' _].
  assert (Hnone : timeout_ (this (click t s)) = None).
  { rewrite click_run by apply Hb. by rewrite Hsome. }
  split; [done|]. split; [by apply bound_no_rotation_paused|].
  rewrite click_run by apply Hb. by rewrite Hsome.
Qed.

(** ** The index after [k] rotations *)

(** C3, as stated, fails: on the demo page (three words) the index after
    three rotations is back at 0, which is not [(1 + 3) mod 3]. *)
Lemma rotation_index_counterexample :
  reaches demo_start 3 demo_run ∧
  length (words_ (this demo_run)) = 3 ∧
  currentIndex_ (this demo_start) = 0 ∧
  currentIndex_ (this demo_run) = 0 ∧
  currentIndex_ (this demo_run) ≠ (1 + 3) mod 3.
Proof. split; [apply demo_run_reaches|]. vm_compute. by repeat split. Qed.

(** C3, amended: on a host that has a word element and a non-empty
    [data-words] attribute with [n] words, the index after [k] firings of
    the rotation cycle, counted from the index 0 of construction, is
    [k mod n]; clicks and removals in between do not change it. *)
Theorem rotation_index t0 e body rnd w k s :
  dataset_words e = Some w -> w ≠ EmptyString ->
  filter is_span (childNodes e) ≠ [] ->
  reaches (window_load (initial_page t0 (Some e) body rnd)) k s ->
  length (words_ (this s)) = length (split comma w) ∧
  0 < length (split comma w) ∧
  currentIndex_ (this s) = k mod length (split comma w).
Proof.
  intros Hw Hne Hspan Hreach.
  destruct (loaded_bound t0 e body rnd k s Hreach) as (_ & _ & Hbuilt).
  destruct (loaded_healthy t0 e body rnd k s Hspan Hreach) as [_ Hidx].
  pose proof (built_length e w _ Hw Hne Hbuilt) as Hlen.
  pose proof (split_nonempty w) as Hpos.
  split; [done|]. split; [done|].
  rewrite Hidx, Hlen. by apply iter_next_index.
Qed.

Lemma rotation_index_witness :
  length (words_ (this demo_run)) = length (split comma "Alpha,Beta,Gamma") ∧
  0 < length (split comma "Alpha,Beta,Gamma") ∧
  currentIndex_ (this demo_run) = 3 mod length (split comma "Alpha,Beta,Gamma").
Proof.
  apply (rotation_index 0 demo_host [] (λ _, zero_random) "Alpha,Beta,Gamma" 3 demo_run).
  - reflexivity.
  - discriminate.
  - vm_compute. discriminate.
  - apply demo_run_reaches.
Defined.

(** ** Clicks *)

(** C4, as stated, fails: there is no pause action apart from the toggle,
    and the toggle invoked on a paused instance arms a timer. *)
Lemma click_when_paused_counterexample :
  let paused := click 1000 demo_start in
  reaches demo_start 0 (click 2000 paused) ∧
  timeout_ (this paused) = None ∧ timers (page paused) = [] ∧
  timeout_ (this (click 2000 paused)) = Some 2%positive ∧
  timers (page (click 2000 paused)) =
    [{| handle := 2; due := 4500; callback := CbRotateWord |}].
Proof.
  split.
  - apply reaches_click; [apply reaches_click; [apply reaches_start|]|];
      vm_compute; lia.
  - vm_compute. by repeat split.
Qed.

(** C4, amended: on an instance that is paused (no handle stored), the click
    toggle does not crash and resumes: it arms one rotation timer, a full
    interval after the click, and stores its handle.  The timer stays
    cleared only as long as no click arrives. *)
Theorem click_when_paused t0 e body rnd k s t :
  reaches (window_load (initial_page t0 (Some e) body rnd)) k s ->
  timeout_ (this s) = None ->
  ∃ h, timeout_ (this (click t s)) = Some h ∧
       rotations (timers (page (click t s))) =
         [{| handle := h; due := t + 2500; callback := CbRotateWord |}] ∧
       console_errors (page (click t s)) = console_errors (page s).
Proof.
  intros Hreach Hnone.
  destruct (loaded_bound t0 e body rnd k s Hreach) as (Hb & _).
  by apply click_paused.
Qed.

Lemma click_when_paused_witness :
  ∃ h, timeout_ (this (click 2000 (click 1000 demo_start))) = Some h ∧
       rotations (timers (page (click 2000 (click 1000 demo_start)))) =
         [{| handle := h; due := 2000 + 2500; callback := CbRotateWord |}] ∧
       console_errors (page (click 2000 (click 1000 demo_start))) =
         console_errors (page (click 1000 demo_start)).
Proof.
  apply (click_when_paused 0 demo_host [] (λ _, zero_random) 0).
  - apply reaches_click; [apply reaches_start|vm_compute; lia].
  - reflexivity.
Defined.

(** C8: on a running instance (a handle is stored), two clicks in succession
    first cancel the timer and clear the handle, then arm a timer again; the
    new timer is due one full interval (2500 ms) after the second click,
    whenever the cancelled one was due. *)
Theorem toggle_twice_rearms t0 e body rnd k s h t1 t2 :
  reaches (window_load (initial_page t0 (Some e) body rnd)) k s ->
  timeout_ (this s) = Some h ->
  timeout_ (this (click t1 s)) = None ∧
  rotations (timers (page (click t1 s))) = [] ∧
  ∃ h', timeout_ (this (click t2 (click t1 s))) = Some h' ∧
        rotations (timers (page (click t2 (click t1 s)))) =
          [{| handle := h'; due := t2 + 2500; callback := CbRotateWord |}].
Proof.
  intros Hreach Hsome.
  destruct (loaded_bound t0 e body rnd k s Hreach) as (Hb & _).
  destruct (click_running t1 s h Hb Hsome) as (Hnone & Hrot & _).
  destruct (bound_click t1 s Hb) as [Hb1 _].
  destruct (click_paused t2 (click t1 s) Hb1 Hnone) as (h' & Hh' & Hrot' & _).
  split; [done|]. split; [done|]. by exists h'.
Qed.

Lemma toggle_twice_rearms_witness :
  timeout_ (this (click 1000 demo_start)) = None ∧
  rotations (timers (page (click 1000 demo_start))) = [] ∧
  ∃ h', timeout_ (this (click 2000 (click 1000 demo_start))) = Some h' ∧
        rotations (timers (page (click 2000 (click 1000 demo_start)))) =
          [{| handle := h'; due := 2000 + 2500; callback := CbRotateWord |}].
Proof.
  apply (toggle_twice_rearms 0 demo_host [] (λ _, zero_random) 0 demo_start 1%positive).
  - apply reaches_start.
  - reflexivity.
Defined.

(** ** The timer handle *)

(** C7, as stated, fails: when the host has no word element the first
    rotation throws before it re-arms the timer; the handle of the timer
    that fired stays stored although nothing is scheduled. *)
Lemma timer_invariant_counterexample :
  let s := fire 2500 {| handle := 1; due := 2500; callback := CbRotateWord |} bare_start in
  reaches bare_start 1 s ∧
  timeout_ (this s) = Some 1%positive ∧
  timers (page s) = [] ∧
  console_errors (page s) = [cannot_read "classList"].
Proof.
  split.
  - apply reaches_rotate;
      [apply reaches_start|by vm_compute; repeat constructor|done|vm_compute; lia|simpl; lia].
  - vm_compute. by repeat split.
Qed.

(** C7, amended: in every state reachable from construction by timer firings
    and click toggles, at most one rotation timer is pending, and a pending
    rotation timer is the one whose handle is stored.  When the host had a
    word element at construction the converse holds as well: a stored handle
    is the handle of the one pending rotation timer, so the handle is
    non-null exactly when a rotation is scheduled. *)
Theorem timer_invariant t0 e body rnd k s :
  reaches (window_load (initial_page t0 (Some e) body rnd)) k s ->
  length (rotations (timers (page s))) ≤ 1 ∧
  (∀ tm, tm ∈ rotations (timers (page s)) -> timeout_ (this s) = Some (handle tm)) ∧
  (filter is_span (childNodes e) ≠ [] ->
   ∀ h, timeout_ (this s) = Some h ->
        ∃ tm, rotations (timers (page s)) = [tm] ∧ handle tm = h).
Proof.
  intros Hreach.
  destruct (loaded_bound t0 e body rnd k s Hreach) as (Hb & _).
  pose proof (bound_timer s Hb) as Htimer.
  split; [|split].
  - destruct Htimer as [->|(tm & -> & _)]; simpl; lia.
  - intros tm Htm. destruct Htimer as [Hnil|(tm' & Heq & Hto)].
    + rewrite Hnil in Htm. by apply elem_of_nil in Htm.
    + rewrite Heq in Htm. apply list_elem_of_singleton in Htm. by subst tm'.
  - intros Hspan h Hh.
    destruct (loaded_healthy t0 e body rnd k s Hspan Hreach) as [Hhealthy _].
    pose proof (healthy_armed s Hhealthy h Hh) as Harmed.
    destruct Htimer as [?|(tm & Heq & Hto)]; [done|].
    exists tm. split; [done|]. congruence.
Qed.

Lemma timer_invariant_witness :
  length (rotations (timers (page demo_run))) ≤ 1 ∧
  (∀ tm, tm ∈ rotations (timers (page demo_run)) ->
         timeout_ (this demo_run) = Some (handle tm)) ∧
  (filter is_span (childNodes demo_host) ≠ [] ->
   ∀ h, timeout_ (this demo_run) = Some h ->
        ∃ tm, rotations (timers (page demo_run)) = [tm] ∧ handle tm = h).
Proof.
  apply (timer_invariant 0 demo_host [] (λ _, zero_random) 3).
  apply demo_run_reaches.
Defined.

(** ** The ready flag *)

(** C9: the constructor adds the [is-ready] class to the body, and no later
    rotation, scheduling or click changes the class list of the body: the
    flag is there in every state reachable after construction. *)
Theorem ready_flag_stays t0 e body rnd k s :
  reaches (window_load (initial_page t0 (Some e) body rnd)) k s ->
  body_classList (page s) = token_add CLASSES.IS_READY body ∧
  CLASSES.IS_READY ∈ body_classList (page s).
Proof.
  intros Hreach.
  destruct (loaded_bound t0 e body rnd k s Hreach) as (_ & Hbody & _).
  split; [done|]. rewrite Hbody. unfold token_add.
  destruct (decide (CLASSES.IS_READY ∈ body)); [done|].
  apply elem_of_app. right. apply list_elem_of_here.
Qed.

Lemma ready_flag_stays_witness :
  body_classList (page demo_run) = token_add CLASSES.IS_READY [] ∧
  CLASSES.IS_READY ∈ body_classList (page demo_run).
Proof.
  apply (ready_flag_stays 0 demo_host [] (λ _, zero_random) 3).
  apply demo_run_reaches.
Defined.

(** ** The tokens of the attribute *)




(** The words the demo page builds when every [Math.random()] is 0. *)
Lemma demo_words :
  words_ (this demo_start) = [str "Alpha"; str "Gamma"; str "Beta"].
Proof. reflexivity. Qed.




(** The example of C10: the value ["A,"] has the two tokens ["A"] and the
    empty string, and both are words of the built list, whatever
    [Math.random] returns. *)
Example trailing_comma_words rnd :
  split comma "A," = ["A"; EmptyString] ∧
  words_ (this (window_load
                  (initial_page 0 (Some {| dataset_words := Some "A,";
                                           childNodes := [span 0 "A"] |}) [] rnd)))
  = [str "A"; str EmptyString].
Proof.
  split; [reflexivity|].
  destruct (window_load_run 0 {| dataset_words := Some "A,"; childNodes := [span 0 "A"] |}
              [] rnd) as (ws & calls & (shuffled & -> & Hperm) & ->).
  apply Permutation_singleton_r in Hperm. by subst shuffled.
Qed.

(** * Further properties of the code *)

(** ** [shuffleArray_] *)



(** An array of at most one element comes back as it is. *)
Theorem shuffleArray_short array s :
  length array ≤ 1 ->
  ∃ s', shuffleArray_ array s = (s', Normal array).
Proof.
  intros Hlen.
  destruct (shuffleArray_perm array s) as (s' & array' & Hrun & Hperm & _).
  exists s'. rewrite Hrun. do 2 f_equal.
  destruct array as [|x [|y array]]; simpl in Hlen; try lia.
  - by apply Permutation_nil_r in Hperm.
  - by apply Permutation_singleton_r in Hperm.
Qed.

Lemma shuffleArray_short_witness :
  ∃ s', shuffleArray_ [str "Alpha"] {| page := demo_page; this := blank |}
        = (s', Normal [str "Alpha"]).
Proof. apply shuffleArray_short. simpl. lia. Defined.

(** *** Every order can come out of the shuffle *)










(** ** The constructor *)

(** On a page that has a host, [initialize] completes whatever the host
    holds.  It leaves the host as it found it (the first word is not put on
    display by the script), registers one more click listener, arms one
    timer an interval ahead and stores its handle, and marks the body as
    ready. *)
Theorem initialize_with_host pg e :
  host pg = Some e ->
  ∃ s, initialize {| page := pg; this := blank |} = (s, Normal tt) ∧
       host (page s) = Some e ∧
       host_listeners (page s) = host_listeners pg ++ [ToggleAnimation] ∧
       timers (page s) =
         timers pg ++ [{| handle := next_handle pg; due := now pg + 2500;
                          callback := CbRotateWord |}] ∧
       this s = {| el_ := Some HostEl; words_ := words_ (this s); currentIndex_ := 0;
                   interval_ := 2500; duration_ := 400;
                   timeout_ := Some (next_handle pg) |} ∧
       built e (words_ (this s)) ∧
       body_classList (page s) = token_add CLASSES.IS_READY (body_classList pg) ∧
       console_errors (page s) = console_errors pg.
Proof.
  intros Hhost.
  destruct (initialize_run pg e Hhost) as (pg' & ws & Hrun & Hpage & Hbuilt).
  exists (constructed ws pg'). split; [done|].
  destruct pg', pg. unfold with_random_calls in Hpage. simpl in *.
  injection Hpage as -> -> -> -> -> -> -> -> ->. by repeat split.
Qed.

Lemma initialize_with_host_witness :
  ∃ s, initialize {| page := demo_page; this := blank |} = (s, Normal tt) ∧
       host (page s) = Some demo_host ∧
       host_listeners (page s) = host_listeners demo_page ++ [ToggleAnimation] ∧
       timers (page s) =
         timers demo_page ++ [{| handle := next_handle demo_page;
                                 due := now demo_page + 2500;
                                 callback := CbRotateWord |}] ∧
       this s = {| el_ := Some HostEl; words_ := words_ (this s); currentIndex_ := 0;
                   interval_ := 2500; duration_ := 400;
                   timeout_ := Some (next_handle demo_page) |} ∧
       built demo_host (words_ (this s)) ∧
       body_classList (page s) = token_add CLASSES.IS_READY (body_classList demo_page) ∧
       console_errors (page s) = console_errors demo_page.
Proof. apply initialize_with_host. reflexivity. Defined.

(** ** What stays as the constructor left it *)

(** Nothing that runs after the constructor assigns the word list, the
    interval, the duration or the element again, or registers a listener:
    in every state reached by clicks and timers they are as the constructor
    left them. *)
Theorem setup_is_stable t0 e body rnd k s :
  reaches (window_load (initial_page t0 (Some e) body rnd)) k s ->
  words_ (this s) = words_ (this (window_load (initial_page t0 (Some e) body rnd))) ∧
  el_ (this s) = Some HostEl ∧
  interval_ (this s) = 2500 ∧
  duration_ (this s) = 400 ∧
  host_listeners (page s) = [ToggleAnimation].
Proof.
  intros Hreach.
  destruct (loaded_bound t0 e body rnd k s Hreach) as (Hb & _).
  destruct (window_load_run t0 e body rnd) as (ws & calls & _ & Hload).
  rewrite Hload in Hreach |- *.
  destruct (reaches_bound _ k s (constructed_bound t0 e body rnd ws calls) Hreach)
    as [_ [Hwords _]].
  split; [done|]. destruct Hb. by repeat split.
Qed.

Lemma setup_is_stable_witness :
  words_ (this demo_run) = words_ (this demo_start) ∧
  el_ (this demo_run) = Some HostEl ∧
  interval_ (this demo_run) = 2500 ∧
  duration_ (this demo_run) = 400 ∧
  host_listeners (page demo_run) = [ToggleAnimation].
Proof.
  apply (setup_is_stable 0 demo_host [] (λ _, zero_random) 3).
  apply demo_run_reaches.
Defined.

(** ** Rotations of an empty word list *)




(** ** A rotation that finds no previous word element *)

(** When the host has no [span], [rotateWord_] throws on
    [previousWordEl.classList], after the new word element has been appended
    and activated and before anything else: the host has gained its one word
    element, while the index, the stored handle and the timers are as
    before. *)
Theorem rotateWord_without_previous s e :
  el_ (this s) = Some HostEl -> host (page s) = Some e ->
  filter is_span (childNodes e) = [] ->
  ∃ s' e',
    rotateWord_ s = (s', Throw (cannot_read "classList")) ∧
    this s' = this s ∧
    timers (page s') = timers (page s) ∧
    host (page s') = Some e' ∧
    length (childNodes e') = S (length (childNodes e)) ∧
    filter is_span (childNodes e') =
      [{| node_id := next_node (page s); localName := "span";
          textContent :=
            textContent (node_set_textContent
              (array_get (words_ (this s))
                 (next_index (currentIndex_ (this s)) (length (words_ (this s)))))
              (span 0 EmptyString));
          classList := [CLASSES.ENTERING; CLASSES.ACTIVE] |}].
Proof.
  intros Hel Hhost Hnone.
  exists (stranded e s), (entered s e).
  split; [apply rotateWord_throws; try done; by rewrite Hnone|].
  split; [done|]. split; [done|]. split; [done|]. split.
  - simpl. rewrite length_fmap, length_app. simpl. lia.
  - simpl. rewrite fmap_app, filter_app.
    assert (Hold : filter is_span
              ((λ n, if decide (node_id n = next_node (page s))
                     then node_add_class CLASSES.ACTIVE n else n) <$> childNodes e) = []).
    { pose proof (spans_add_class (next_node (page s)) CLASSES.ACTIVE e) as Hlen.
      simpl in Hlen. rewrite Hnone in Hlen. by apply nil_length_inv. }
    rewrite Hold. simpl. rewrite decide_True by done. by rewrite filter_cons_True.
Qed.

Lemma rotateWord_without_previous_witness :
  ∃ s' e',
    rotateWord_ bare_start = (s', Throw (cannot_read "classList")) ∧
    this s' = this bare_start ∧
    timers (page s') = timers (page bare_start) ∧
    host (page s') = Some e' ∧
    length (childNodes e') = S (length (childNodes bare_host)) ∧
    filter is_span (childNodes e') =
      [{| node_id := next_node (page bare_start); localName := "span";
          textContent :=
            textContent (node_set_textContent
              (array_get (words_ (this bare_start))
                 (next_index (currentIndex_ (this bare_start))
                    (length (words_ (this bare_start)))))
              (span 0 EmptyString));
          classList := [CLASSES.ENTERING; CLASSES.ACTIVE] |}].
Proof.
  apply (rotateWord_without_previous bare_start bare_host); reflexivity.
Defined.

(** ** What a click leaves alone *)

Lemma removals_filter_keep (P : Timer -> Prop) `{∀ tm, Decision (P tm)} ts :
  (∀ tm, tm ∈ ts -> ¬ P tm -> is_rotation tm) ->
  removals (filter P ts) = removals ts.
Proof.
  unfold removals. induction ts as [|x ts IH]; intros Hkeep; [done|].
  assert (Hts : ∀ tm, tm ∈ ts -> ¬ P tm -> is_rotation tm).
  { intros tm Htm. apply Hkeep. by apply list_elem_of_further. }
  rewrite filter_cons. destruct (decide (P x)) as [HP|HP].
  - rewrite !filter_cons. destruct (decide (¬ is_rotation x)); by rewrite IH.
  - rewrite (filter_cons_False (λ tm, ¬ is_rotation tm) x).
    + by apply IH.
    + intros Hnot. apply Hnot, Hkeep; [apply list_elem_of_here|done].
Qed.

Lemma rotations_filter_keep (P : Timer -> Prop) `{∀ tm, Decision (P tm)} ts :
  (∀ tm, tm ∈ ts -> ¬ P tm -> ¬ is_rotation tm) ->
  rotations (filter P ts) = rotations ts.
Proof.
  unfold rotations. induction ts as [|x ts IH]; intros Hkeep; [done|].
  assert (Hts : ∀ tm, tm ∈ ts -> ¬ P tm -> ¬ is_rotation tm).
  { intros tm Htm. apply Hkeep. by apply list_elem_of_further. }
  rewrite filter_cons. destruct (decide (P x)) as [HP|HP].
  - rewrite !filter_cons. destruct (decide (is_rotation x)); by rewrite IH.
  - rewrite (filter_cons_False is_rotation x).
    + by apply IH.
    + apply Hkeep; [apply list_elem_of_here|done].
Qed.

Lemma handle_known_click t s :
  bound s -> handle_known s -> handle_known (click t s).
Proof.
  intros Hb Hk. rewrite click_run by apply Hb.
  destruct (timeout_ (this s)) as [h|] eqn:Hto; intros h' Hh'; [done|].
  project. simpl in Hh'. injection Hh' as <-. split; [lia|].
  intros tm Htm Hhandle. apply elem_of_app in Htm as [Htm|Htm].
  - destruct (bound_fresh s Hb) as [_ Hlt].
    rewrite Forall_forall in Hlt. specialize (Hlt tm Htm). lia.
  - apply list_elem_of_singleton in Htm. by subst tm.
Qed.

Lemma handle_known_fire t tm s :
  bound s -> handle_known s -> tm ∈ timers (page s) -> handle_known (fire t tm s).
Proof.
  intros Hb Hk Htm. destruct (bound_host s Hb) as [e He].
  assert (Hpop : ∀ h, timeout_ (this s) = Some h ->
            (h < next_handle (page s))%positive ∧
            ∀ x, x ∈ filter (λ x, handle x ≠ handle tm) (timers (page s)) ->
                 handle x = h -> is_rotation x).
  { intros h Hh. destruct (Hk h Hh) as [Hlt Hrot]. split; [done|].
    intros x Hx. apply list_elem_of_filter in Hx as [_ Hx]. by apply Hrot. }
  destruct (decide (is_rotation tm)) as [Hrot|Hrem].
  - rewrite (fire_rotation_run t tm s e) by (done || apply Hb).
    destruct (head (filter is_span (childNodes e))) as [previous|].
    + intros h Hh. simpl in Hh. injection Hh as <-. project. split; [lia|].
      intros x Hx Hhandle. apply elem_of_app in Hx as [Hx|Hx].
      * apply elem_of_app in Hx as [Hx|Hx].
        -- apply list_elem_of_filter in Hx as [_ Hx].
           destruct (bound_fresh s Hb) as [_ Hlt].
           rewrite Forall_forall in Hlt. specialize (Hlt x Hx). lia.
        -- apply list_elem_of_singleton in Hx. subst x. simpl in Hhandle. lia.
      * apply list_elem_of_singleton in Hx. by subst x.
    + intros h Hh. by apply Hpop.
  - destruct (callback tm) as [|id] eqn:Hcb; [done|].
    rewrite (fire_removal_run t tm s e id) by done.
    destruct (decide (attached id e)); intros h Hh; by apply Hpop.
Qed.

Lemma reaches_handle_known s0 k s :
  bound s0 -> handle_known s0 -> reaches s0 k s -> handle_known s.
Proof.
  intros Hb0 Hk0. induction 1 as [|k s t Hreach Hk Ht
                                  |k s t tm Hreach Hk Htm Hcb Ht Hdue
                                  |k s t tm id Hreach Hk Htm Hcb Ht Hdue]; [done|..];
    destruct (reaches_bound s0 k s Hb0 Hreach) as [Hb _].
  - by apply handle_known_click.
  - by apply handle_known_fire.
  - by apply handle_known_fire.
Qed.

Lemma loaded_handle_known t0 e body rnd k s :
  reaches (window_load (initial_page t0 (Some e) body rnd)) k s -> handle_known s.
Proof.
  destruct (window_load_run t0 e body rnd) as (ws & calls & _ & ->).
  apply reaches_handle_known; [apply constructed_bound|].
  intros h Hh. simpl in Hh. injection Hh as <-. simpl. split; [lia|].
  intros tm Htm _. apply list_elem_of_singleton in Htm. by subst tm.
Qed.

(** In every state reached from construction, a click runs the toggle, which
    prevents the default action of the click and does not throw.  It flips
    between running and paused and touches nothing but the rotation timer and
    its stored handle: the host, the index, the words, the body classes and
    the pending removals of previous word elements are as before. *)
Theorem click_touches_rotation_timer_only t0 e body rnd k s t :
  reaches (window_load (initial_page t0 (Some e) body rnd)) k s ->
  (dispatch_click {| defaultPrevented := false |} (at_time t s)).2
    = {| defaultPrevented := true |} ∧
  (timeout_ (this (click t s)) = None ↔ is_Some (timeout_ (this s))) ∧
  host (page (click t s)) = host (page s) ∧
  currentIndex_ (this (click t s)) = currentIndex_ (this s) ∧
  words_ (this (click t s)) = words_ (this s) ∧
  body_classList (page (click t s)) = body_classList (page s) ∧
  console_errors (page (click t s)) = console_errors (page s) ∧
  removals (timers (page (click t s))) = removals (timers (page s)).
Proof.
  intros Hreach.
  destruct (loaded_bound t0 e body rnd k s Hreach) as (Hb & _).
  pose proof (loaded_handle_known t0 e body rnd k s Hreach) as Hk.
  split.
  { unfold dispatch_click. simpl. rewrite (bound_listeners s Hb). simpl.
    by rewrite toggleAnimation_run. }
  rewrite click_run by apply Hb.
  destruct (timeout_ (this s)) as [h|] eqn:Hto.
  - split; [by split|]. repeat (split; [done|]).
    project. apply removals_filter_keep. intros tm Htm Hnot.
    destruct (Hk h Hto) as [_ Hrot]. apply Hrot; [done|].
    by destruct (decide (handle tm = h)).
  - split; [split; [done|by intros [? ?]]|]. repeat (split; [done|]).
    project. apply removals_snoc_rotation.
Qed.

Lemma click_touches_rotation_timer_only_witness :
  (dispatch_click {| defaultPrevented := false |} (at_time 8000 demo_run)).2
    = {| defaultPrevented := true |} ∧
  (timeout_ (this (click 8000 demo_run)) = None ↔ is_Some (timeout_ (this demo_run))) ∧
  host (page (click 8000 demo_run)) = host (page demo_run) ∧
  currentIndex_ (this (click 8000 demo_run)) = currentIndex_ (this demo_run) ∧
  words_ (this (click 8000 demo_run)) = words_ (this demo_run) ∧
  body_classList (page (click 8000 demo_run)) = body_classList (page demo_run) ∧
  console_errors (page (click 8000 demo_run)) = console_errors (page demo_run) ∧
  removals (timers (page (click 8000 demo_run))) = removals (timers (page demo_run)).
Proof.
  apply (click_touches_rotation_timer_only 0 demo_host [] (λ _, zero_random) 3).
  apply demo_run_reaches.
Defined.

(** ** The word on display *)

Lemma remove_node_app_l id (l1 l2 : list Node) :
  id ∈ node_id <$> l1 -> remove_node id (l1 ++ l2) = remove_node id l1 ++ l2.
Proof.
  induction l1 as [|n l1 IH]; intros Hin; [by apply elem_of_nil in Hin|].
  simpl. destruct (decide (node_id n = id)); [done|].
  rewrite fmap_cons in Hin. apply elem_of_cons in Hin as [Heq|Hin]; [congruence|].
  by rewrite IH.
Qed.

Lemma Forall_remove_node (P : Node -> Prop) id ns :
  Forall P ns -> Forall P (remove_node id ns).
Proof.
  induction 1 as [|n ns Hn Hns IH]; [constructor|].
  simpl. destruct (decide (node_id n = id)); [done|by constructor].
Qed.

Lemma remove_node_length id ns :
  id ∈ node_id <$> ns -> S (length (remove_node id ns)) = length ns.
Proof.
  induction ns as [|n ns IH]; intros Hin; [by apply elem_of_nil in Hin|].
  simpl. destruct (decide (node_id n = id)); [done|].
  rewrite fmap_cons in Hin. apply elem_of_cons in Hin as [Heq|Hin]; [congruence|].
  simpl. by rewrite IH.
Qed.

Lemma removal_targets_filter (P : Timer -> Prop) `{∀ tm, Decision (P tm)} limit ts :
  removal_targets_below limit ts -> removal_targets_below limit (filter P ts).
Proof.
  intros Hts tm id Htm. apply list_elem_of_filter in Htm as [_ Htm]. by apply Hts.
Qed.

Lemma removal_targets_snoc_rotation limit ts h d :
  removal_targets_below limit ts ->
  removal_targets_below limit (ts ++ [{| handle := h; due := d; callback := CbRotateWord |}]).
Proof.
  intros Hts tm id Htm Hcb. apply elem_of_app in Htm as [Htm|Htm]; [by eapply Hts|].
  apply list_elem_of_singleton in Htm. by subst tm.
Qed.

Lemma removal_targets_snoc_removal limit ts h d previous :
  removal_targets_below limit ts -> previous < limit ->
  removal_targets_below limit
    (ts ++ [{| handle := h; due := d; callback := CbRemoveChild previous |}]).
Proof.
  intros Hts Hprev tm id Htm Hcb. apply elem_of_app in Htm as [Htm|Htm]; [by eapply Hts|].
  apply list_elem_of_singleton in Htm. subst tm. simpl in Hcb. by injection Hcb as <-.
Qed.

Lemma removal_targets_weaken limit limit' ts :
  limit ≤ limit' -> removal_targets_below limit ts -> removal_targets_below limit' ts.
Proof. intros Hle Hts tm id Htm Hcb. specialize (Hts tm id Htm Hcb). lia. Qed.

Lemma display_click t s :
  bound s ->
  (ids_fresh s -> ids_fresh (click t s)) ∧
  (shows_newest s -> shows_newest (click t s)).
Proof.
  intros Hb. rewrite click_run by apply Hb.
  destruct (timeout_ (this s)) as [h|]; split.
  - intros [Hids Htargets]. split; [done|]. by apply removal_targets_filter.
  - intros (Hpos & Hlast & Htargets). split; [done|]. split; [done|].
    by apply removal_targets_filter.
  - intros [Hids Htargets]. split; [done|]. by apply removal_targets_snoc_rotation.
  - intros (Hpos & Hlast & Htargets). split; [done|]. split; [done|].
    by apply removal_targets_snoc_rotation.
Qed.

Lemma display_fire_removal t tm s id :
  bound s -> tm ∈ timers (page s) -> callback tm = CbRemoveChild id ->
  (ids_fresh s -> ids_fresh (fire t tm s)) ∧
  (shows_newest s -> shows_newest (fire t tm s)).
Proof.
  intros Hb Htm Hcb. destruct (bound_host s Hb) as [e He].
  rewrite (fire_removal_run t tm s e id) by done.
  unfold ids_fresh, shows_newest, newest. rewrite He. cbn [from_option].
  destruct (decide (attached id e)) as [Hatt|Hatt]; project; cbn [from_option]; split.
  - intros [Hids Htargets]. split; [by apply Forall_remove_node|].
    by apply removal_targets_filter.
  - intros (Hpos & [older Hlast] & Htargets). split; [done|]. split.
    + exists (remove_node id older). simpl. rewrite Hlast.
      apply remove_node_app_l.
      unfold attached in Hatt. rewrite Hlast, fmap_app in Hatt.
      apply elem_of_app in Hatt as [Hatt|Hatt]; [done|].
      apply list_elem_of_singleton in Hatt. simpl in Hatt.
      specialize (Htargets tm id Htm Hcb). lia.
    + by apply removal_targets_filter.
  - rewrite He. cbn [from_option].
    intros [Hids Htargets]. split; [done|]. by apply removal_targets_filter.
  - rewrite He. cbn [from_option].
    intros (Hpos & Hlast & Htargets). split; [done|]. split; [done|].
    by apply removal_targets_filter.
Qed.

Lemma head_filter_elem_of (P : Node -> Prop) `{∀ n, Decision (P n)} ns n :
  head (filter P ns) = Some n -> n ∈ ns.
Proof.
  intros Hhead. apply head_Some_elem_of in Hhead.
  by apply list_elem_of_filter in Hhead as [_ ?].
Qed.

Lemma display_fire_rotation t tm s :
  bound s -> healthy s -> tm ∈ timers (page s) -> is_rotation tm ->
  ids_fresh s -> ids_fresh (fire t tm s) ∧ shows_newest (fire t tm s).
Proof.
  intros Hb [Hspans _] Htm Hrot [Hids Htargets]. destruct (bound_host s Hb) as [e He].
  rewrite (fire_rotation_run t tm s e) by (done || apply Hb).
  unfold span_count in Hspans. rewrite He in Hspans, Hids. cbn [from_option] in Hspans, Hids.
  destruct (head (filter is_span (childNodes e))) as [previous|] eqn:Hprev;
    [|apply head_None in Hprev; rewrite Hprev in Hspans; simpl in Hspans; lia].
  assert (Hprevlt : node_id previous < next_node (page s)).
  { apply head_filter_elem_of in Hprev. rewrite Forall_forall in Hids. by apply Hids. }
  unfold ids_fresh, shows_newest, newest. project_nodes.
  assert (Htargets' : removal_targets_below (next_node (page s))
            (filter (λ x, handle x ≠ handle tm) (timers (page s)) ++
             [{| handle := next_handle (page s);
                 due := t + duration_ (this s);
                 callback := CbRemoveChild (node_id previous) |}])).
  { apply removal_targets_snoc_removal; [by apply removal_targets_filter|done]. }
  split; [split|split; [lia|split]].
  - simpl. rewrite !Forall_fmap. apply Forall_app. split.
    + eapply Forall_impl; [exact Hids|]. intros n Hn. simpl in *.
      repeat (destruct (decide _); simpl); lia.
    + constructor; [|constructor]. simpl. repeat (destruct (decide _); simpl); lia.
  - apply removal_targets_snoc_rotation.
    eapply removal_targets_weaken; [|exact Htargets']. lia.
  - eexists. simpl. rewrite !fmap_app. f_equal. simpl.
    destruct (decide (next_node (page s) = next_node (page s))); [|done]. simpl.
    rewrite decide_False by lia. reflexivity.
  - apply removal_targets_snoc_rotation. exact Htargets'.
Qed.

Lemma reaches_display s0 k s :
  bound s0 -> healthy s0 -> ids_fresh s0 -> reaches s0 k s ->
  ids_fresh s ∧ (0 < k -> shows_newest s).
Proof.
  intros Hb0 Hh0 Hids0.
  induction 1 as [|k s t Hreach [Hids Hshow] Ht
                  |k s t tm Hreach [Hids Hshow] Htm Hcb Ht Hdue
                  |k s t tm id Hreach [Hids Hshow] Htm Hcb Ht Hdue].
  - split; [done|lia].
  - destruct (reaches_bound s0 k s Hb0 Hreach) as [Hb _].
    destruct (display_click t s Hb) as [Hkeep Hkeep']. split; [by apply Hkeep|].
    intros Hk. by apply Hkeep', Hshow.
  - destruct (reaches_bound s0 k s Hb0 Hreach) as [Hb _].
    destruct (reaches_healthy s0 k s Hb0 Hh0 Hreach) as [Hh _].
    destruct (display_fire_rotation t tm s Hb Hh Htm Hcb Hids) as [? ?]. by split.
  - destruct (reaches_bound s0 k s Hb0 Hreach) as [Hb _].
    destruct (display_fire_removal t tm s id Hb Htm Hcb) as [Hkeep Hkeep'].
    split; [by apply Hkeep|]. intros Hk. by apply Hkeep', Hshow.
Qed.

Lemma constructed_ids_fresh t0 e body rnd ws calls :
  ids_fresh (constructed ws (with_random_calls calls (initial_page t0 (Some e) body rnd))).
Proof.
  split; simpl.
  - apply Forall_forall. intros n Hn.
    assert (node_id n ≤ max_list (node_id <$> childNodes e)); [|lia].
    apply max_list_elem_of_le. by apply list_elem_of_fmap_2.
  - intros tm id Htm Hcb. apply list_elem_of_singleton in Htm. by subst tm.
Qed.

(** On a host that had a word element at construction, once a rotation has
    fired the last child of the host is the element the latest rotation
    created, in every state reached since: a [span] with the classes
    [is-entering] and [is-active] whose text is the word at the current
    index (the empty string when there is no such word).  No click and no
    removal of a previous element takes it away or changes it. *)
Theorem newest_word_on_display t0 e body rnd k s :
  filter is_span (childNodes e) ≠ [] -> 0 < k ->
  reaches (window_load (initial_page t0 (Some e) body rnd)) k s ->
  ∃ e' older id,
    host (page s) = Some e' ∧
    childNodes e' =
      older ++ [{| node_id := id; localName := "span";
                   textContent :=
                     word_text (array_get (words_ (this s)) (currentIndex_ (this s)));
                   classList := [CLASSES.ENTERING; CLASSES.ACTIVE] |}].
Proof.
  intros Hspan Hk.
  destruct (window_load_run t0 e body rnd) as (ws & calls & _ & ->).
  intros Hreach.
  pose proof (constructed_bound t0 e body rnd ws calls) as Hb0.
  destruct (reaches_display _ k s Hb0 (constructed_healthy t0 e body rnd ws calls Hspan)
              (constructed_ids_fresh t0 e body rnd ws calls) Hreach) as [_ Hshow].
  destruct (Hshow Hk) as (_ & [older Hlast] & _).
  destruct (reaches_bound _ k s Hb0 Hreach) as [Hb _].
  destruct (bound_host s Hb) as [e' He']. rewrite He' in Hlast. simpl in Hlast.
  by exists e', older, (pred (next_node (page s))).
Qed.

Lemma newest_word_on_display_witness :
  ∃ e' older id,
    host (page demo_run) = Some e' ∧
    childNodes e' =
      older ++ [{| node_id := id; localName := "span";
                   textContent :=
                     word_text (array_get (words_ (this demo_run))
                                          (currentIndex_ (this demo_run)));
                   classList := [CLASSES.ENTERING; CLASSES.ACTIVE] |}].
Proof.
  apply (newest_word_on_display 0 demo_host [] (λ _, zero_random) 3).
  - vm_compute. discriminate.
  - lia.
  - apply demo_run_reaches.
Defined.

(** ** The removal of the previous word element *)

(** The deferred function of [rotateWord_] never touches the instance nor
    the rotation timer.  When its element is still a child of the host it
    removes that one child; when the element has left the host already,
    [parentNode] is [null]: the function throws a [TypeError] and the host
    stays as it is. *)
Theorem removal_fires t0 e0 body rnd k s t tm id e :
  reaches (window_load (initial_page t0 (Some e0) body rnd)) k s ->
  tm ∈ timers (page s) -> callback tm = CbRemoveChild id ->
  host (page s) = Some e ->
  this (fire t tm s) = this s ∧
  rotations (timers (page (fire t tm s))) = rotations (timers (page s)) ∧
  (tm ∉ timers (page (fire t tm s))) ∧
  (attached id e ->
     host (page (fire t tm s)) = Some (element_remove id e) ∧
     S (length (childNodes (element_remove id e))) = length (childNodes e) ∧
     console_errors (page (fire t tm s)) = console_errors (page s)) ∧
  (¬ attached id e ->
     host (page (fire t tm s)) = Some e ∧
     console_errors (page (fire t tm s)) =
       console_errors (page s) ++ [cannot_read "removeChild"]).
Proof.
  intros Hreach Htm Hcb He.
  destruct (loaded_bound t0 e0 body rnd k s Hreach) as (Hb & _).
  rewrite (fire_removal_run t tm s e id) by done.
  assert (Hrot : rotations (filter (λ x, handle x ≠ handle tm) (timers (page s)))
                 = rotations (timers (page s))).
  { apply rotations_filter_keep. intros x Hx Hsame Hrot.
    assert (Heq : handle x = handle tm) by (by destruct (decide (handle x = handle tm))).
    rewrite (fresh_timers_handle_inj _ _ x tm (bound_fresh s Hb) Hx Htm Heq) in Hrot.
    unfold is_rotation in Hrot. congruence. }
  assert (Hgone : tm ∉ filter (λ x, handle x ≠ handle tm) (timers (page s))).
  { intros Hin. apply list_elem_of_filter in Hin as [Hne _]. by apply Hne. }
  destruct (decide (attached id e)) as [Hatt|Hatt].
  - split; [done|]. split; [done|]. split; [done|]. split; [|done].
    intros _. split; [done|]. split; [|done]. simpl. by apply remove_node_length.
  - split; [done|]. split; [done|]. split; [done|]. split; [done|].
    intros _. project_nodes. by rewrite He.
Qed.

Lemma removal_fires_witness :
  let s := fire 2500 {| handle := 1; due := 2500; callback := CbRotateWord |} demo_start in
  let tm := {| handle := 2; due := 2900; callback := CbRemoveChild 0 |} in
  let e := element_add_class 0 CLASSES.EXITING (entered (popped 2500
             {| handle := 1; due := 2500; callback := CbRotateWord |} demo_start)
             demo_host) in
  this (fire 2900 tm s) = this s ∧
  rotations (timers (page (fire 2900 tm s))) = rotations (timers (page s)) ∧
  (tm ∉ timers (page (fire 2900 tm s))) ∧
  (attached 0 e ->
     host (page (fire 2900 tm s)) = Some (element_remove 0 e) ∧
     S (length (childNodes (element_remove 0 e))) = length (childNodes e) ∧
     console_errors (page (fire 2900 tm s)) = console_errors (page s)) ∧
  (¬ attached 0 e ->
     host (page (fire 2900 tm s)) = Some e ∧
     console_errors (page (fire 2900 tm s)) =
       console_errors (page s) ++ [cannot_read "removeChild"]).
Proof.
  apply (removal_fires 0 demo_host [] (λ _, zero_random) 1).
  - apply reaches_rotate;
      [apply reaches_start|by vm_compute; repeat constructor|done|vm_compute; lia|simpl; lia].
  - vm_compute. repeat constructor.
  - reflexivity.
  - vm_compute. reflexivity.
Defined.

(** ** After a rotation that threw *)

(** A rotation that throws for want of a previous word element leaves the
    handle of the timer that fired in place although no timer is pending.
    The next click therefore only clears the handle, and the click after it
    arms a timer; as the rotation that threw had appended its word element,
    the rotation this timer runs completes and advances the index. *)
Theorem two_clicks_after_throw t0 e0 body rnd k s e tm t t1 t2 t3 :
  reaches (window_load (initial_page t0 (Some e0) body rnd)) k s ->
  host (page s) = Some e -> filter is_span (childNodes e) = [] ->
  tm ∈ timers (page s) -> is_rotation tm ->
  let s1 := fire t tm s in
  let s3 := click t2 (click t1 s1) in
  let tm' := {| handle := next_handle (page s); due := t2 + 2500;
                callback := CbRotateWord |} in
  console_errors (page s1) = console_errors (page s) ++ [cannot_read "classList"] ∧
  currentIndex_ (this s1) = currentIndex_ (this s) ∧
  timeout_ (this s1) = Some (handle tm) ∧
  rotations (timers (page s1)) = [] ∧
  timeout_ (this (click t1 s1)) = None ∧
  rotations (timers (page (click t1 s1))) = [] ∧
  timeout_ (this s3) = Some (handle tm') ∧
  rotations (timers (page s3)) = [tm'] ∧
  currentIndex_ (this (fire t3 tm' s3)) =
    next_index (currentIndex_ (this s)) (length (words_ (this s))) ∧
  console_errors (page (fire t3 tm' s3)) = console_errors (page s1).
Proof.
  intros Hreach He Hnone Htm Hrot. cbv zeta.
  destruct (loaded_bound t0 e0 body rnd k s Hreach) as (Hb & _).
  assert (Hstored : timeout_ (this s) = Some (handle tm)).
  { assert (Hin : tm ∈ rotations (timers (page s))) by (by apply list_elem_of_filter).
    destruct (bound_timer s Hb) as [Hnil|(x & Heq & Hx)].
    - rewrite Hnil in Hin. by apply elem_of_nil in Hin.
    - rewrite Heq in Hin. apply list_elem_of_singleton in Hin. by subst x. }
  pose proof (popped_rotation t tm s Hb Htm Hrot) as Hpopped.
  destruct (bound_fire t tm s Hb Htm) as [Hb1 _].
  assert (Hs1 : fire t tm s = report (cannot_read "classList") (stranded e (popped t tm s))).
  { rewrite (fire_rotation_run t tm s e) by (done || apply Hb). by rewrite Hnone. }
  destruct (click_running t1 (fire t tm s) (handle tm) Hb1) as (Hnone1 & Hrot1 & _).
  { by rewrite Hs1. }
  destruct (bound_click t1 (fire t tm s) Hb1) as [Hb2 _].
  assert (Hs3 : click t2 (click t1 (fire t tm s)) =
                scheduled (at_time t2 (cleared (handle tm) (at_time t1 (fire t tm s))))).
  { rewrite (click_run t2) by apply Hb2. rewrite Hnone1.
    rewrite (click_run t1) by apply Hb1.
    replace (timeout_ (this (fire t tm s))) with (Some (handle tm)); [done|].
    by rewrite Hs1. }
  destruct (bound_click t2 _ Hb2) as [Hb3 _].
  split; [by rewrite Hs1|]. split; [by rewrite Hs1|]. split; [by rewrite Hs1|].
  split; [by rewrite Hs1|]. split; [done|]. split; [done|].
  assert (Hrot3 : rotations (timers (page (click t2 (click t1 (fire t tm s))))) =
                  [{| handle := next_handle (page s); due := t2 + 2500;
                      callback := CbRotateWord |}]).
  { destruct (click_paused t2 _ Hb2 Hnone1) as (h & Hh & Hrots & _).
    rewrite Hrots. rewrite Hs3, Hs1 in Hh. simpl in Hh. by injection Hh as <-. }
  split; [by rewrite Hs3, Hs1|]. split; [done|].
  set (tm' := {| handle := next_handle (page s); due := t2 + 2500;
                 callback := CbRotateWord |}) in *.
  assert (Hhost3 : host (page (click t2 (click t1 (fire t tm s)))) =
                   Some (entered (popped t tm s) e)) by (by rewrite Hs3, Hs1).
  rewrite (fire_rotation_run t3 tm' _ _ (bound_el _ Hb3) Hhost3) by done.
  pose proof (spans_entered (popped t tm s) e) as Hlen.
  destruct (filter is_span (childNodes (entered (popped t tm s) e))) as [|previous spans];
    [done|].
  cbn [head]. rewrite Hs3, Hs1. by split.
Qed.

Lemma two_clicks_after_throw_witness :
  let tm := {| handle := 1; due := 2500; callback := CbRotateWord |} in
  let s1 := fire 2500 tm bare_start in
  let s3 := click 4000 (click 3000 s1) in
  let tm' := {| handle := next_handle (page bare_start); due := 4000 + 2500;
                callback := CbRotateWord |} in
  console_errors (page s1) =
    console_errors (page bare_start) ++ [cannot_read "classList"] ∧
  currentIndex_ (this s1) = currentIndex_ (this bare_start) ∧
  timeout_ (this s1) = Some (handle tm) ∧
  rotations (timers (page s1)) = [] ∧
  timeout_ (this (click 3000 s1)) = None ∧
  rotations (timers (page (click 3000 s1))) = [] ∧
  timeout_ (this s3) = Some (handle tm') ∧
  rotations (timers (page s3)) = [tm'] ∧
  currentIndex_ (this (fire 6500 tm' s3)) =
    next_index (currentIndex_ (this bare_start)) (length (words_ (this bare_start))) ∧
  console_errors (page (fire 6500 tm' s3)) = console_errors (page s1).
Proof.
  apply (two_clicks_after_throw 0 bare_host [] (λ _, zero_random) 0 bare_start bare_host).
  - unfold bare_start. apply reaches_start.
  - reflexivity.
  - reflexivity.
  - vm_compute. repeat constructor.
  - reflexivity.
Defined.

(** ** Timers that fire in order *)

Lemma reaches_in_order_reaches s0 k s : reaches_in_order s0 k s -> reaches s0 k s.
Proof.
  induction 1.
  - apply reaches_start.
  - by apply reaches_click.
  - by apply reaches_rotate.
  - by eapply reaches_remove.
Qed.

Lemma removals_filter (P : Timer -> Prop) `{∀ tm, Decision (P tm)} ts :
  removals (filter P ts) = filter P (removals ts).
Proof.
  unfold removals. induction ts as [|tm ts IH]; [done|].
  rewrite !filter_cons.
  destruct (decide (P tm)), (decide (¬ is_rotation tm));
    rewrite ?filter_cons, ?decide_True, ?decide_False by done; by rewrite ?IH.
Qed.

Lemma removals_none ts : (∀ x, x ∈ ts -> is_rotation x) -> removals ts = [].
Proof.
  unfold removals. induction ts as [|x ts IH]; intros Hall; [done|].
  rewrite filter_cons_False.
  - apply IH. intros y Hy. apply Hall. by apply list_elem_of_further.
  - intros Hrem. apply Hrem, Hall. apply list_elem_of_here.
Qed.

Lemma attached_add_class id id' token e :
  attached id e -> attached id (element_add_class id' token e).
Proof.
  unfold attached. simpl. rewrite <- list_fmap_compose.
  intros Hin. apply list_elem_of_fmap in Hin as (n & -> & Hn).
  apply list_elem_of_fmap. exists n. split; [|done].
  simpl. by destruct (decide (node_id n = id')).
Qed.

Lemma attached_append id n e : attached id e -> attached id (element_append n e).
Proof.
  unfold attached. simpl. rewrite fmap_app. intros Hin. apply elem_of_app. by left.
Qed.

Lemma orderly_click t s :
  bound s -> now (page s) ≤ t -> orderly s -> orderly (click t s).
Proof.
  intros Hb Ht [Hdue Hbefore Hone Hquiet]. rewrite click_run by apply Hb.
  destruct (timeout_ (this s)) as [h|]; constructor; project_nodes.
  - intros x Hx Hrem. apply list_elem_of_filter in Hx as [_ Hx].
    specialize (Hdue x Hx Hrem). lia.
  - intros x r Hx Hr. apply list_elem_of_filter in Hx as [_ Hx].
    apply list_elem_of_filter in Hr as [_ Hr]. by apply Hbefore.
  - rewrite removals_filter.
    destruct Hone as [->|(x & id & e & -> & Hcb & He & Hatt)]; [by left|].
    rewrite filter_cons. destruct (decide (handle x ≠ h)); [|by left].
    right. by exists x, id, e.
  - done.
  - intros x Hx Hrem. apply elem_of_app in Hx as [Hx|Hx].
    + specialize (Hdue x Hx Hrem). lia.
    + apply list_elem_of_singleton in Hx. subst x. by destruct Hrem.
  - intros x r Hx Hr Hrem Hrot.
    apply elem_of_app in Hx as [Hx|Hx];
      [|apply list_elem_of_singleton in Hx; subst x; by destruct Hrem].
    apply elem_of_app in Hr as [Hr|Hr]; [by apply Hbefore|].
    apply list_elem_of_singleton in Hr. subst r. simpl.
    destruct (bound_fresh s Hb) as [_ Hlt]. rewrite Forall_forall in Hlt.
    specialize (Hlt x Hx). specialize (Hdue x Hx Hrem).
    rewrite (bound_interval s Hb). split; lia.
  - rewrite removals_snoc_rotation. done.
  - done.
Qed.

Lemma orderly_fire_rotation t tm s :
  bound s -> healthy s -> tm ∈ timers (page s) -> is_rotation tm ->
  now (page s) ≤ t -> ¬ overtakes tm (timers (page s)) ->
  orderly s -> orderly (fire t tm s).
Proof.
  intros Hb [Hspans _] Htm Hrot Ht Hfirst [Hdue Hbefore Hone Hquiet].
  destruct (bound_host s Hb) as [e He].
  assert (Hnone : ∀ x, x ∈ timers (page s) -> is_rotation x).
  { intros x Hx. destruct (decide (is_rotation x)) as [|Hrem]; [done|].
    destruct Hfirst. exists x. split; [done|]. by apply Hbefore. }
  assert (Hremovals : removals (filter (λ x, handle x ≠ handle tm) (timers (page s))) = []).
  { apply removals_none. intros x Hx.
    apply list_elem_of_filter in Hx as [_ Hx]. by apply Hnone. }
  pose proof (popped_rotation t tm s Hb Htm Hrot) as Hpopped. simpl in Hpopped.
  rewrite (fire_rotation_run t tm s e) by (done || apply Hb).
  unfold span_count in Hspans. rewrite He in Hspans. cbn [from_option] in Hspans.
  destruct (head (filter is_span (childNodes e))) as [previous|] eqn:Hprev;
    [|apply head_None in Hprev; rewrite Hprev in Hspans; simpl in Hspans; lia].
  assert (Hold : ∀ x, x ∈ filter (λ x, handle x ≠ handle tm) (timers (page s)) ->
                      is_rotation x).
  { intros x Hx. apply list_elem_of_filter in Hx as [_ Hx]. by apply Hnone. }
  assert (Hnorot : ∀ x, x ∈ filter (λ x, handle x ≠ handle tm) (timers (page s)) ->
                        False).
  { intros x Hx. assert (Hin : x ∈ rotations (filter (λ x, handle x ≠ handle tm)
                                                      (timers (page s)))).
    { apply list_elem_of_filter. split; [by apply Hold|done]. }
    rewrite Hpopped in Hin. by apply elem_of_nil in Hin. }
  constructor; project_nodes.
  - intros x Hx Hrem. apply elem_of_app in Hx as [Hx|Hx].
    + apply elem_of_app in Hx as [Hx|Hx]; [by destruct (Hnorot x)|].
      apply list_elem_of_singleton in Hx. subst x. simpl.
      rewrite (bound_duration s Hb). lia.
    + apply list_elem_of_singleton in Hx. subst x. by destruct Hrem.
  - intros x r Hx Hr Hrem Hrot'.
    apply elem_of_app in Hx as [Hx|Hx];
      [|apply list_elem_of_singleton in Hx; subst x; by destruct Hrem].
    apply elem_of_app in Hx as [Hx|Hx]; [by destruct (Hnorot x)|].
    apply list_elem_of_singleton in Hx. subst x.
    apply elem_of_app in Hr as [Hr|Hr].
    + apply elem_of_app in Hr as [Hr|Hr]; [by destruct (Hnorot r)|].
      apply list_elem_of_singleton in Hr. by subst r.
    + apply list_elem_of_singleton in Hr. subst r. simpl.
      rewrite (bound_duration s Hb), (bound_interval s Hb). split; lia.
  - right. eexists _, (node_id previous), _.
    rewrite removals_snoc_rotation, removals_snoc_removal, Hremovals.
    split; [done|]. split; [done|]. split; [done|].
    apply attached_add_class. unfold entered.
    apply attached_add_class, attached_append.
    apply head_filter_elem_of in Hprev. unfold attached. by apply list_elem_of_fmap_2.
  - done.
Qed.

Lemma orderly_fire_removal t tm s :
  bound s -> tm ∈ timers (page s) -> ¬ is_rotation tm ->
  now (page s) ≤ t -> orderly s -> orderly (fire t tm s).
Proof.
  intros Hb Htm Hrem Ht [Hdue Hbefore Hone Hquiet].
  assert (Hin : tm ∈ removals (timers (page s))) by (by apply list_elem_of_filter).
  destruct Hone as [Hnil|(x & id & e & Heq & Hcb & He & Hatt)].
  { rewrite Hnil in Hin. by apply elem_of_nil in Hin. }
  rewrite Heq in Hin. apply list_elem_of_singleton in Hin. subst x.
  rewrite (fire_removal_run t tm s e id) by done.
  rewrite decide_True by done.
  constructor; project_nodes.
  - intros x Hx Hrem'. apply list_elem_of_filter in Hx as [_ Hx].
    specialize (Hdue x Hx Hrem'). lia.
  - intros x r Hx Hr. apply list_elem_of_filter in Hx as [_ Hx].
    apply list_elem_of_filter in Hr as [_ Hr]. by apply Hbefore.
  - left. rewrite removals_filter, Heq.
    rewrite filter_cons_False; [done|]. intros Hne. by apply Hne.
  - done.
Qed.

Lemma reaches_in_order_orderly s0 k s :
  bound s0 -> healthy s0 -> orderly s0 -> reaches_in_order s0 k s -> orderly s.
Proof.
  intros Hb0 Hh0 Ho0.
  induction 1 as [|k s t Hreach Ho Ht
                  |k s t tm Hreach Ho Htm Hcb Ht Hdue Hfirst
                  |k s t tm id Hreach Ho Htm Hcb Ht Hdue Hfirst]; [done|..];
    pose proof (reaches_in_order_reaches s0 k s Hreach) as Hr;
    destruct (reaches_bound s0 k s Hb0 Hr) as [Hb _].
  - by apply orderly_click.
  - destruct (reaches_healthy s0 k s Hb0 Hh0 Hr) as [Hh _].
    by apply orderly_fire_rotation.
  - apply orderly_fire_removal; try done. unfold is_rotation. by rewrite Hcb.
Qed.

Lemma constructed_orderly t0 e body rnd ws calls :
  orderly (constructed ws (with_random_calls calls (initial_page t0 (Some e) body rnd))).
Proof.
  constructor; simpl.
  - intros x Hx Hrem. apply list_elem_of_singleton in Hx. subst x. by destruct Hrem.
  - intros x r Hx Hr Hrem. apply list_elem_of_singleton in Hx. subst x. by destruct Hrem.
  - by left.
  - done.
Qed.

Lemma timers_split ts : length ts = length (rotations ts) + length (removals ts).
Proof.
  unfold rotations, removals.
  rewrite <- length_app. apply Permutation_length. symmetry.
  apply filter_app_complement.
Qed.

(** On a host that had a word element at construction, and with timers
    that fire in order, no callback of the component ever throws: every
    rotation finds its previous word element and every removal finds its
    element in the host.  At most one removal is pending at a time, so the
    component never has more than two timers pending. *)
Theorem in_order_never_throws t0 e body rnd k s :
  filter is_span (childNodes e) ≠ [] ->
  reaches_in_order (window_load (initial_page t0 (Some e) body rnd)) k s ->
  console_errors (page s) = [] ∧
  length (removals (timers (page s))) ≤ 1 ∧
  length (timers (page s)) ≤ 2.
Proof.
  intros Hspan.
  destruct (window_load_run t0 e body rnd) as (ws & calls & _ & ->).
  intros Hreach.
  pose proof (constructed_bound t0 e body rnd ws calls) as Hb0.
  pose proof (reaches_in_order_orderly _ k s Hb0
                (constructed_healthy t0 e body rnd ws calls Hspan)
                (constructed_orderly t0 e body rnd ws calls) Hreach) as [_ _ Hone Hquiet].
  destruct (reaches_bound _ k s Hb0 (reaches_in_order_reaches _ k s Hreach)) as [Hb _].
  assert (Hrem : length (removals (timers (page s))) ≤ 1).
  { destruct Hone as [->|(x & id & e' & -> & _)]; simpl; lia. }
  split; [done|]. split; [done|]. rewrite timers_split.
  destruct (bound_timer s Hb) as [->|(tm & -> & _)]; simpl; lia.
Qed.

Lemma overtakesb_false tm ts : overtakesb tm ts = false -> ¬ overtakes tm ts.
Proof.
  intros Hb (x & Hx & Hlt & Hdue).
  apply not_true_iff_false in Hb. apply Hb.
  apply existsb_exists. exists x. split; [by apply list_elem_of_In|].
  apply andb_true_iff. split; [by apply Pos.ltb_lt | by apply Nat.ltb_lt].
Qed.

Lemma demo_run_in_order : reaches_in_order demo_start 3 demo_run.
Proof.
  unfold demo_run.
  apply in_order_rotate;
    [|by vm_compute; repeat constructor|done|apply Nat.leb_le; vm_compute; reflexivity
     |apply Nat.leb_le; vm_compute; reflexivity|apply overtakesb_false; vm_compute; reflexivity].
  eapply in_order_remove;
    [|by vm_compute; repeat constructor|done|apply Nat.leb_le; vm_compute; reflexivity
     |apply Nat.leb_le; vm_compute; reflexivity|apply overtakesb_false; vm_compute; reflexivity].
  apply in_order_rotate;
    [|by vm_compute; repeat constructor|done|apply Nat.leb_le; vm_compute; reflexivity
     |apply Nat.leb_le; vm_compute; reflexivity|apply overtakesb_false; vm_compute; reflexivity].
  eapply in_order_remove;
    [|by vm_compute; repeat constructor|done|apply Nat.leb_le; vm_compute; reflexivity
     |apply Nat.leb_le; vm_compute; reflexivity|apply overtakesb_false; vm_compute; reflexivity].
  apply in_order_rotate;
    [|by vm_compute; repeat constructor|done|apply Nat.leb_le; vm_compute; reflexivity
     |apply Nat.leb_le; vm_compute; reflexivity|apply overtakesb_false; vm_compute; reflexivity].
  apply in_order_start.
Qed.

Lemma in_order_never_throws_witness :
  console_errors (page demo_run) = [] ∧
  length (removals (timers (page demo_run))) ≤ 1 ∧
  length (timers (page demo_run)) ≤ 2.
Proof.
  apply (in_order_never_throws 0 demo_host [] (λ _, zero_random) 3).
  - vm_compute. discriminate.
  - apply demo_run_in_order.
Defined.

(** ** The number of word elements *)

Lemma ids_add_class id token e :
  node_id <$> childNodes (element_add_class id token e) = node_id <$> childNodes e.
Proof.
  simpl. rewrite <- list_fmap_compose. apply list_fmap_ext.
  intros i n _. simpl. by destruct (decide (node_id n = id)).
Qed.

Lemma child_add_class id token e n :
  n ∈ childNodes e ->
  ∃ n', n' ∈ childNodes (element_add_class id token e) ∧
        node_id n' = node_id n ∧ (is_span n -> is_span n').
Proof.
  intros Hn. exists (if decide (node_id n = id) then node_add_class token n else n).
  split; [|by destruct (decide (node_id n = id))].
  simpl. apply list_elem_of_fmap. by exists n.
Qed.

Lemma NoDup_remove_node id ns :
  NoDup (node_id <$> ns) -> NoDup (node_id <$> remove_node id ns).
Proof.
  induction ns as [|n ns IH]; [done|].
  rewrite fmap_cons. intros [Hnotin Hnd]%NoDup_cons.
  simpl. destruct (decide (node_id n = id)); [done|].
  rewrite fmap_cons. apply NoDup_cons. split; [|by apply IH].
  intros Hin. apply Hnotin.
  apply list_elem_of_fmap in Hin as (n' & Heq & Hn').
  rewrite Heq. apply list_elem_of_fmap_2.
  clear -Hn'. induction ns as [|x ns IH]; [done|].
  simpl in Hn'. destruct (decide (node_id x = id)).
  - by apply list_elem_of_further.
  - apply elem_of_cons in Hn' as [->|Hn']; [apply list_elem_of_here|].
    by apply list_elem_of_further, IH.
Qed.

(** With distinct identities, the removal of a word element takes exactly
    that one away. *)
Lemma spans_remove_exact ns n :
  NoDup (node_id <$> ns) -> n ∈ ns -> is_span n ->
  S (length (filter is_span (remove_node (node_id n) ns))) =
  length (filter is_span ns).
Proof.
  induction ns as [|x ns IH]; intros Hnd Hn Hspan; [by apply elem_of_nil in Hn|].
  rewrite fmap_cons in Hnd. apply NoDup_cons in Hnd as [Hnotin Hnd].
  simpl. apply elem_of_cons in Hn as [<-|Hn].
  - rewrite decide_True by done. by rewrite filter_cons_True.
  - rewrite decide_False.
    + rewrite !filter_cons. destruct (decide (is_span x)); simpl; by rewrite IH.
    + intros Heq. apply Hnotin. rewrite Heq. by apply list_elem_of_fmap_2.
Qed.

(** When timers fire in order, no removal is pending while a rotation
    fires. *)
Lemma in_order_no_removal tm s :
  orderly s -> tm ∈ timers (page s) -> is_rotation tm ->
  ¬ overtakes tm (timers (page s)) ->
  ∀ x, x ∈ timers (page s) -> is_rotation x.
Proof.
  intros Ho Htm Hrot Hfirst x Hx.
  destruct (decide (is_rotation x)) as [|Hrem]; [done|].
  destruct Hfirst. exists x. split; [done|]. by apply (orderly_before s Ho).
Qed.

Lemma tidy_click m t s :
  bound s -> handle_known s -> tidy m s -> tidy m (click t s).
Proof.
  intros Hb Hk [Hnd Hcount Htarget]. rewrite click_run by apply Hb.
  unfold span_count in *.
  destruct (timeout_ (this s)) as [h|] eqn:Hto; constructor; project_nodes; try done.
  - rewrite removals_filter_keep; [done|]. intros tm Htm Hnot.
    destruct (Hk h Hto) as [_ Hrot]. apply Hrot; [done|].
    by destruct (decide (handle tm = h)).
  - intros x id Hx. apply list_elem_of_filter in Hx as [_ Hx]. by apply Htarget.
  - by rewrite removals_snoc_rotation.
  - intros x id Hx Hcb. apply elem_of_app in Hx as [Hx|Hx]; [by eapply Htarget|].
    apply list_elem_of_singleton in Hx. by subst x.
Qed.

Lemma tidy_fire_rotation m t tm s :
  bound s -> healthy s -> ids_fresh s -> orderly s ->
  tm ∈ timers (page s) -> is_rotation tm -> ¬ overtakes tm (timers (page s)) ->
  tidy m s -> tidy m (fire t tm s).
Proof.
  intros Hb [Hspans _] [Hids _] Ho Htm Hrot Hfirst [Hnd Hcount Htarget].
  destruct (bound_host s Hb) as [e He].
  pose proof (in_order_no_removal tm s Ho Htm Hrot Hfirst) as Hnone.
  assert (Hrem0 : removals (timers (page s)) = []) by (by apply removals_none).
  assert (Hrem1 : removals (filter (λ x, handle x ≠ handle tm) (timers (page s))) = []).
  { apply removals_none. intros x Hx.
    apply list_elem_of_filter in Hx as [_ Hx]. by apply Hnone. }
  rewrite (fire_rotation_run t tm s e) by (done || apply Hb).
  unfold span_count in *. rewrite He in Hspans, Hids, Hnd, Hcount, Htarget.
  cbn [from_option] in Hspans, Hids, Hnd, Hcount, Htarget.
  destruct (head (filter is_span (childNodes e))) as [previous|] eqn:Hprev;
    [|apply head_None in Hprev; rewrite Hprev in Hspans; simpl in Hspans; lia].
  assert (Hprevin : previous ∈ filter is_span (childNodes e))
    by (by apply head_Some_elem_of).
  apply list_elem_of_filter in Hprevin as [Hprevspan Hprevin].
  constructor; project_nodes.
  - rewrite ids_add_class. unfold entered. rewrite ids_add_class. simpl.
    rewrite fmap_app. apply NoDup_app. split; [done|]. split; [|apply NoDup_singleton].
    intros id Hid Hnew. apply list_elem_of_singleton in Hnew. simpl in Hnew.
    apply list_elem_of_fmap in Hid as (n & -> & Hn).
    rewrite Forall_forall in Hids. specialize (Hids n Hn). simpl in Hids. lia.
  - unfold span_count. project_nodes. rewrite spans_add_class, spans_entered.
    rewrite removals_snoc_rotation, removals_snoc_removal, Hrem1.
    rewrite Hcount, Hrem0. simpl. lia.
  - intros x id Hx Hcb. apply elem_of_app in Hx as [Hx|Hx];
      [|apply list_elem_of_singleton in Hx; by subst x].
    apply elem_of_app in Hx as [Hx|Hx].
    { apply list_elem_of_filter in Hx as [_ Hx].
      pose proof (Hnone x Hx) as Hxrot. unfold is_rotation in Hxrot. congruence. }
    apply list_elem_of_singleton in Hx. subst x. simpl in Hcb. injection Hcb as <-.
    assert (Hin : previous ∈ childNodes (element_append (next_word_element (popped t tm s)) e)).
    { simpl. apply elem_of_app. by left. }
    destruct (child_add_class (next_node (page s)) CLASSES.ACTIVE _ previous Hin)
      as (n1 & Hn1 & Hid1 & Hspan1).
    destruct (child_add_class (node_id previous) CLASSES.EXITING _ n1 Hn1)
      as (n2 & Hn2 & Hid2 & Hspan2).
    exists n2. split; [done|]. split; [congruence|]. by apply Hspan2, Hspan1.
Qed.

Lemma tidy_fire_removal m t tm s :
  bound s -> orderly s -> tm ∈ timers (page s) -> ¬ is_rotation tm ->
  tidy m s -> tidy m (fire t tm s).
Proof.
  intros Hb Ho Htm Hrem [Hnd Hcount Htarget]. destruct (bound_host s Hb) as [e He].
  assert (Hin : tm ∈ removals (timers (page s))) by (by apply list_elem_of_filter).
  destruct (orderly_one s Ho) as [Hnil|(x & id & e' & Heq & Hcb & _)].
  { rewrite Hnil in Hin. by apply elem_of_nil in Hin. }
  rewrite Heq in Hin. apply list_elem_of_singleton in Hin. subst x.
  destruct (Htarget tm id Htm Hcb) as (n & Hn & Hid & Hspan).
  unfold span_count in *. rewrite He in Hnd, Hcount, Hn. cbn [from_option] in Hnd, Hcount, Hn.
  rewrite (fire_removal_run t tm s e id) by done.
  rewrite decide_True by (unfold attached; rewrite <- Hid; by apply list_elem_of_fmap_2).
  assert (Hrem1 : removals (filter (λ x, handle x ≠ handle tm) (timers (page s))) = []).
  { rewrite removals_filter, Heq. rewrite filter_cons_False; [done|].
    intros Hne. by apply Hne. }
  constructor; project_nodes.
  - by apply NoDup_remove_node.
  - unfold span_count. project_nodes. rewrite Hrem1. rewrite Heq in Hcount. simpl in *.
    pose proof (spans_remove_exact (childNodes e) n Hnd Hn Hspan) as Hexact.
    rewrite Hid in Hexact. lia.
  - intros x id' Hx Hcb'. apply list_elem_of_filter in Hx as [Hne Hx].
    assert (Hxin : x ∈ removals (timers (page s))).
    { apply list_elem_of_filter. split; [|done]. unfold is_rotation. congruence. }
    rewrite Heq in Hxin. apply list_elem_of_singleton in Hxin. by subst x.
Qed.

Lemma reaches_in_order_tidy m s0 k s :
  bound s0 -> healthy s0 -> handle_known s0 -> ids_fresh s0 -> orderly s0 ->
  tidy m s0 -> reaches_in_order s0 k s -> tidy m s.
Proof.
  intros Hb0 Hh0 Hk0 Hi0 Ho0 Ht0.
  induction 1 as [|k s t Hreach Htidy Ht
                  |k s t tm Hreach Htidy Htm Hcb Ht Hdue Hfirst
                  |k s t tm id Hreach Htidy Htm Hcb Ht Hdue Hfirst]; [done|..];
    pose proof (reaches_in_order_reaches s0 k s Hreach) as Hr;
    destruct (reaches_bound s0 k s Hb0 Hr) as [Hb _];
    pose proof (reaches_in_order_orderly s0 k s Hb0 Hh0 Ho0 Hreach) as Ho.
  - apply tidy_click; try done. by apply (reaches_handle_known s0 k).
  - destruct (reaches_healthy s0 k s Hb0 Hh0 Hr) as [Hh _].
    destruct (reaches_display s0 k s Hb0 Hh0 Hi0 Hr) as [Hi _].
    by apply tidy_fire_rotation.
  - apply tidy_fire_removal; try done. unfold is_rotation. by rewrite Hcb.
Qed.

(** With timers that fire in order, the host does not accumulate word
    elements: when its children had distinct identities at construction,
    it holds in every state the word elements it had at construction, plus
    one while the removal of a previous word element is pending.  A host
    that started with one word element has one, and two during a
    transition. *)
Theorem word_elements_do_not_accumulate t0 e body rnd k s :
  filter is_span (childNodes e) ≠ [] ->
  NoDup (node_id <$> childNodes e) ->
  reaches_in_order (window_load (initial_page t0 (Some e) body rnd)) k s ->
  span_count s =
    length (filter is_span (childNodes e)) + length (removals (timers (page s))) ∧
  (length (filter is_span (childNodes e)) = 1 -> 1 ≤ span_count s ≤ 2).
Proof.
  intros Hspan Hnd.
  destruct (window_load_run t0 e body rnd) as (ws & calls & _ & Hload).
  rewrite Hload. intros Hreach.
  pose proof (constructed_bound t0 e body rnd ws calls) as Hb0.
  pose proof (constructed_healthy t0 e body rnd ws calls Hspan) as Hh0.
  pose proof (constructed_orderly t0 e body rnd ws calls) as Ho0.
  assert (Hk0 : handle_known
            (constructed ws (with_random_calls calls (initial_page t0 (Some e) body rnd)))).
  { rewrite <- Hload. apply (loaded_handle_known t0 e body rnd 0). apply reaches_start. }
  assert (Ht0 : tidy (length (filter is_span (childNodes e)))
            (constructed ws (with_random_calls calls (initial_page t0 (Some e) body rnd)))).
  { constructor; simpl; [done|unfold span_count; simpl; lia|].
    intros x id Hx Hcb. apply list_elem_of_singleton in Hx. by subst x. }
  pose proof (reaches_in_order_tidy _ _ k s Hb0 Hh0 Hk0
                (constructed_ids_fresh t0 e body rnd ws calls) Ho0 Ht0 Hreach)
    as [_ Hcount _].
  pose proof (reaches_in_order_orderly _ k s Hb0 Hh0 Ho0 Hreach) as [_ _ Hone _].
  split; [done|]. intros Hm. rewrite Hcount, Hm.
  destruct Hone as [->|(x & id & e' & -> & _)]; simpl; lia.
Qed.

Lemma word_elements_do_not_accumulate_witness :
  span_count demo_run =
    length (filter is_span (childNodes demo_host)) +
    length (removals (timers (page demo_run))) ∧
  (length (filter is_span (childNodes demo_host)) = 1 -> 1 ≤ span_count demo_run ≤ 2).
Proof.
  apply (word_elements_do_not_accumulate 0 demo_host [] (λ _, zero_random) 3).
  - vm_compute. discriminate.
  - apply NoDup_singleton.
  - apply demo_run_in_order.
Defined.

(** ** What [buildWords_] and [rotateWord_] do to the page *)



(** A rotation that finds the previous word element, on a host none of
    whose children bears the identity of the element about to be created:
    the new word element is appended with the next word as its text and the
    classes [is-entering] and [is-active]; the previous element, and no
    other child, gains [is-exiting]; its removal is set [duration_]
    milliseconds ahead and the next rotation [interval_] milliseconds ahead,
    in this order, and the handle of the latter is stored. *)
Theorem rotateWord_transition s e previous :
  el_ (this s) = Some HostEl -> host (page s) = Some e ->
  head (filter is_span (childNodes e)) = Some previous ->
  Forall (λ n, node_id n ≠ next_node (page s)) (childNodes e) ->
  ∃ s' e',
    rotateWord_ s = (s', Normal tt) ∧
    host (page s') = Some e' ∧
    childNodes e' =
      ((λ n, if decide (node_id n = node_id previous)
             then node_add_class CLASSES.EXITING n else n) <$> childNodes e) ++
      [{| node_id := next_node (page s); localName := "span";
          textContent :=
            word_text (array_get (words_ (this s))
                         (next_index (currentIndex_ (this s)) (length (words_ (this s)))));
          classList := [CLASSES.ENTERING; CLASSES.ACTIVE] |}] ∧
    timers (page s') =
      timers (page s) ++
      [{| handle := next_handle (page s); due := now (page s) + duration_ (this s);
          callback := CbRemoveChild (node_id previous) |};
       {| handle := Pos.succ (next_handle (page s));
          due := now (page s) + interval_ (this s); callback := CbRotateWord |}] ∧
    timeout_ (this s') = Some (Pos.succ (next_handle (page s))) ∧
    console_errors (page s') = console_errors (page s).
Proof.
  intros Hel Hhost Hprev Hfresh.
  exists (rotated e (node_id previous) s), (element_add_class (node_id previous)
                                             CLASSES.EXITING (entered s e)).
  split; [by apply rotateWord_run|]. split; [done|]. split.
  - assert (Hprevne : node_id previous ≠ next_node (page s)).
    { apply head_filter_elem_of in Hprev. rewrite Forall_forall in Hfresh.
      by apply Hfresh. }
    simpl. rewrite !fmap_app. f_equal.
    + rewrite <- list_fmap_compose. apply list_fmap_ext. intros i n Hn. simpl.
      rewrite Forall_forall in Hfresh.
      destruct (decide (node_id n = next_node (page s))) as [Heq|_]; [|done].
      exfalso. apply (Hfresh n); [by eapply list_elem_of_lookup_2|done].
    + simpl. destruct (decide (next_node (page s) = next_node (page s))); [|done].
      simpl. rewrite decide_False by done. reflexivity.
  - split; [|done]. simpl. by rewrite <- app_assoc.
Qed.

Lemma rotateWord_transition_witness :
  ∃ s' e',
    rotateWord_ demo_start = (s', Normal tt) ∧
    host (page s') = Some e' ∧
    childNodes e' =
      ((λ n, if decide (node_id n = node_id (span 0 "Alpha"))
             then node_add_class CLASSES.EXITING n else n) <$> childNodes demo_host) ++
      [{| node_id := next_node (page demo_start); localName := "span";
          textContent :=
            word_text (array_get (words_ (this demo_start))
                         (next_index (currentIndex_ (this demo_start))
                            (length (words_ (this demo_start)))));
          classList := [CLASSES.ENTERING; CLASSES.ACTIVE] |}] ∧
    timers (page s') =
      timers (page demo_start) ++
      [{| handle := next_handle (page demo_start);
          due := now (page demo_start) + duration_ (this demo_start);
          callback := CbRemoveChild (node_id (span 0 "Alpha")) |};
       {| handle := Pos.succ (next_handle (page demo_start));
          due := now (page demo_start) + interval_ (this demo_start);
          callback := CbRotateWord |}] ∧
    timeout_ (this s') = Some (Pos.succ (next_handle (page demo_start))) ∧
    console_errors (page s') = console_errors (page demo_start).
Proof.
  apply (rotateWord_transition demo_start demo_host (span 0 "Alpha")).
  - reflexivity.
  - reflexivity.
  - reflexivity.
  - repeat constructor. vm_compute. discriminate.
Defined.
